(** * Stylus tab manager: the tab-state cache and its reconciliation

    A shallow embedding of the tab manager (the background module that
    imports [./state-db], [./navigation-manager] and [/js/urls]) together
    with the properties of its specification.

    The module keeps
    - [cache], a [Map] from tab id to a mutable record,
    - [listeners], a [Set] of URL-change callbacks,
    and talks to three collaborators that are not part of it: the
    persistent store ([stateDb.set], [stateDb.remove], [stateDb.ready]),
    the URL predicate [supported] and the navigation event source.

    JavaScript records are objects with identity: the same record is
    reachable from the cache, from the snapshot handed over by the store
    and from the argument of [stateDb.set].  The embedding therefore
    keeps a heap of objects and passes locations around. *)

From stdpp Require Import gmap strings list fin_maps.
From Stdlib Require Import ZArith NArith Ascii.

#[local] Set Warnings "-clear-no-such-hyp".

Open Scope Z_scope.

(** ** Numeric coercion of strings

    The reconciler tests [+key >= 0].  For a string this is ECMAScript's
    StringToNumber followed by a comparison of doubles.  Strings are
    sequences of code units below 256. *)

Module ToNumber.

(** The mathematical value of a literal, before rounding:
    [Dec neg m e] stands for (-1)^neg * m * 10^e. *)
Inductive number :=
| NaN
| Inf (neg : bool)
| Dec (neg : bool) (mant : N) (exp10 : Z).

Definition code (c : ascii) : N := N_of_ascii c.

(** WhiteSpace and LineTerminator code units below 256:
    TAB, LF, VT, FF, CR, SP and NBSP. *)
Definition is_ws (c : ascii) : bool :=
  let n := code c in
  ((9 <=? n) && (n <=? 13) || (n =? 32) || (n =? 160))%N.

Fixpoint skip_ws (s : string) : string :=
  match s with
  | String c s' => if is_ws c then skip_ws s' else s
  | EmptyString => s
  end.

Definition trim (s : string) : string :=
  String.rev (skip_ws (String.rev (skip_ws s))).

Definition digit_val (c : ascii) : option N :=
  let n := code c in
  if ((48 <=? n) && (n <=? 57))%N then Some (n - 48)%N else None.

Definition hex_val (c : ascii) : option N :=
  let n := code c in
  if ((48 <=? n) && (n <=? 57))%N then Some (n - 48)%N
  else if ((97 <=? n) && (n <=? 102))%N then Some (n - 87)%N
  else if ((65 <=? n) && (n <=? 70))%N then Some (n - 55)%N
  else None.

Definition below (b : N) (val : ascii → option N) (c : ascii) : option N :=
  match val c with
  | Some d => if (d <? b)%N then Some d else None
  | None => None
  end.

(** DecimalDigits, read greedily: the accumulated value, the number of
    digits consumed and the rest of the input. *)
Fixpoint dec_digits (s : string) (acc : N) (cnt : nat) : N * nat * string :=
  match s with
  | String c s' =>
      match digit_val c with
      | Some d => dec_digits s' (10 * acc + d)%N (S cnt)
      | None => (acc, cnt, s)
      end
  | EmptyString => (acc, cnt, s)
  end.

(** The digits of a NonDecimalIntegerLiteral: every code unit up to the
    end must be a digit of the base. *)
Fixpoint radix_digits (base : N) (s : string) (acc : N) : option N :=
  match s with
  | String c s' =>
      match below base hex_val c with
      | Some d => radix_digits base s' (base * acc + d)%N
      | None => None
      end
  | EmptyString => Some acc
  end.

Definition is_char (c : ascii) (a b : string) : bool :=
  (String.eqb (String c EmptyString) a || String.eqb (String c EmptyString) b)%bool.

Definition non_decimal (s : string) : option N :=
  match s with
  | String z (String p (String c r)) =>
      if negb (is_char z "0" "0") then None
      else if is_char p "x" "X" then radix_digits 16 (String c r) 0
      else if is_char p "o" "O" then radix_digits 8 (String c r) 0
      else if is_char p "b" "B" then radix_digits 2 (String c r) 0
      else None
  | _ => None
  end.

(** ExponentPart, or nothing, up to the end of the input. *)
Definition exponent (s : string) : option Z :=
  match s with
  | EmptyString => Some 0
  | String c r =>
      if is_char c "e" "E" then
        let '(neg, r') :=
          match r with
          | String sg r' =>
              if is_char sg "-" "-" then (true, r')
              else if is_char sg "+" "+" then (false, r')
              else (false, r)
          | EmptyString => (false, r)
          end in
        match dec_digits r' 0 0 with
        | (_, O, _) => None
        | (n, _, EmptyString) => Some (if neg then - Z.of_N n else Z.of_N n)
        | _ => None
        end
      else None
  end.

(** StrUnsignedDecimalLiteral. *)
Definition unsigned_decimal (neg : bool) (s : string) : number :=
  if String.eqb s "Infinity" then Inf neg
  else
    let '(i, ci, r1) := dec_digits s 0 0 in
    let '(m, cf, r2) :=
      match r1 with
      | String d r =>
          if is_char d "." "." then dec_digits r i 0 else (i, O, r1)
      | EmptyString => (i, O, r1)
      end in
    match ci, cf with
    | O, O => NaN
    | _, _ =>
        match exponent r2 with
        | Some e => Dec neg m (e - Z.of_nat cf)
        | None => NaN
        end
    end.

(** StringToNumber. *)
Definition of_string (s : string) : number :=
  let t := trim s in
  if String.eqb t EmptyString then Dec false 0 0
  else
    match non_decimal t with
    | Some n => Dec false n 0
    | None =>
        match t with
        | String sg r =>
            if is_char sg "-" "-" then unsigned_decimal true r
            else if is_char sg "+" "+" then unsigned_decimal false r
            else unsigned_decimal false t
        | EmptyString => NaN
        end
    end.

Definition of_Z (z : Z) : number := Dec (z <? 0) (Z.abs_N z) 0.

(** [x >= 0] on the double nearest to the value.  NaN compares false.
    A negative value compares true only when it rounds to -0, that is
    when its magnitude is at most half the least subnormal, 2^-1075. *)
Definition ge0 (x : number) : bool :=
  match x with
  | NaN => false
  | Inf neg => negb neg
  | Dec false _ _ => true
  | Dec true m e =>
      if (m =? 0)%N then true
      else if 0 <=? e then false
      else Z.of_N m * 2 ^ 1075 <=? 10 ^ (- e)
  end.

End ToNumber.

(** ** Values, objects and the heap *)

Abbreviation loc := positive.

(** The values that occur in tab records.  Numbers are the integers
    (tab ids, frame ids, style ids).  Functions are not values of the
    model, so the members that a value inherits from a built-in
    prototype are outside it: a property is an own property.  The keys
    on which this differs from the source are those of [inherited],
    below. *)
Inductive value :=
| VUndefined
| VNull
| VBool (b : bool)
| VNum (z : Z)
| VStr (s : string)
| VRef (l : loc).

Global Instance value_eq_dec : EqDecision value.
Proof. solve_decision. Defined.

(** Keys of the [Map]s ([cache], and the snapshot of the store): integer
    numbers and strings, compared by SameValueZero. *)
Inductive key :=
| KNum (z : Z)
| KStr (s : string).

Global Instance key_eq_dec : EqDecision key.
Proof. solve_decision. Defined.

Global Instance key_countable : Countable key.
Proof.
  refine (inj_countable'
            (λ k, match k with KNum z => inl z | KStr s => inr s end)
            (λ x, match x with inl z => KNum z | inr s => KStr s end) _).
  by intros [].
Defined.

Abbreviation object := (gmap string value).
Abbreviation heap_t := (gmap loc object).

(** ToBoolean. *)
Definition truthy (v : value) : bool :=
  match v with
  | VUndefined | VNull => false
  | VBool b => b
  | VNum z => negb (z =? 0)
  | VStr s => negb (String.eqb s EmptyString)
  | VRef _ => true
  end.

(** Unary plus on a key, and the test [+key >= 0]. *)
Definition to_number (k : key) : ToNumber.number :=
  match k with
  | KNum z => ToNumber.of_Z z
  | KStr s => ToNumber.of_string s
  end.

Definition key_ge0 (k : key) : bool := ToNumber.ge0 (to_number k).

(** A thrown TypeError, for reads and writes that JavaScript rejects. *)
Inductive result (A : Type) :=
| Ok (a : A)
| TypeError.
Arguments Ok {A} a.
Arguments TypeError {A}.

Global Instance result_bind : MBind result := λ A B f r,
  match r with
  | Ok a => f a
  | TypeError => TypeError
  end.

(** An array index in canonical form: decimal digits without a leading
    zero, except for "0" itself. *)
Definition array_index (k : string) : option nat :=
  match ToNumber.dec_digits k 0 0 with
  | (_, O, _) => None
  | (n, _, EmptyString) =>
      match k with
      | String c (String _ _) =>
          if ToNumber.is_char c "0" "0" then None else Some (N.to_nat n)
      | _ => Some (N.to_nat n)
      end
  | _ => None
  end.

(** The own properties of a string primitive: [length] and the code
    units at its indices. *)
Definition string_prop (s k : string) : option value :=
  if String.eqb k "length" then Some (VNum (Z.of_nat (String.length s)))
  else
    match array_index k with
    | Some i =>
        match String.get i s with
        | Some c => Some (VStr (String c EmptyString))
        | None => None
        end
    | None => None
    end.

(** [o[k]] for an object known by its location. *)
Definition own_prop (h : heap_t) (l : loc) (k : string) : value :=
  default VUndefined (h !! l ≫= (.!! k)).

(** [v[k]]: a read, for any value.  Reading from [undefined] or [null]
    throws.  The read finds own properties: on an object it is the
    source's [obj[k]] for every key that the object has or that names
    no member of [Object.prototype]; numbers and booleans have no own
    property, strings have [length] and their indices. *)
Definition get_prop (h : heap_t) (v : value) (k : string) : result value :=
  match v with
  | VUndefined | VNull => TypeError
  | VRef l => Ok (own_prop h l k)
  | VStr s => Ok (default VUndefined (string_prop s k))
  | VBool _ | VNum _ => Ok VUndefined
  end.

(** [o[k] = x] for an object known by its location. *)
Definition store_prop (h : heap_t) (l : loc) (k : string) (x : value) : heap_t :=
  <[l := <[k := x]> (default ∅ (h !! l))]> h.

(** [v[k] = x] in strict code (the file is an ES module): assigning to
    a property of a primitive throws, as does assigning to [undefined]
    or [null].  On an object the assignment creates or overwrites the
    own property [k]; this is the source's [obj[k] = x] except for the
    key [__proto__], which [Object.prototype] defines with a setter. *)
Definition set_prop (h : heap_t) (v : value) (k : string) (x : value)
  : result heap_t :=
  match v with
  | VRef l => Ok (store_prop h l k x)
  | _ => TypeError
  end.

(** [delete v[k]] in strict code: deleting an own property of a string
    primitive throws (they are not configurable); on numbers and
    booleans there is nothing to delete. *)
Definition delete_prop (h : heap_t) (v : value) (k : string) : result heap_t :=
  match v with
  | VRef l => Ok (alter (delete k) l h)
  | VStr s => if string_prop s k is Some _ then TypeError else Ok h
  | VBool _ | VNum _ => Ok h
  | VUndefined | VNull => TypeError
  end.

(** [{}]: the location of a new object. *)
Definition alloc (h : heap_t) : loc := fresh (dom h).
Global Arguments alloc : simpl never.

(** The structured value of a record, as a store that serialises its
    argument sees it: own properties, in the order of [map_to_list],
    nested objects expanded.  The first argument bounds the nesting
    depth. *)
#[warnings="-register-all"]
Inductive tree :=
| Atom (v : value)
| Obj (props : list (string * tree)).

Fixpoint view (n : nat) (h : heap_t) (v : value) {struct n} : option tree :=
  match v with
  | VRef l =>
      match n with
      | O => None
      | S n' =>
          o ← h !! l;
          Obj <$> mapM (λ kv : string * value,
                          t ← view n' h kv.2; Some (kv.1, t))
                       (map_to_list o)
      end
  | _ => Some (Atom v)
  end.

(** ** The module state and its collaborators *)

(** A callback is known by its identity. *)
Abbreviation fn := nat.

(** The argument [{tabId, url, oldUrl}] handed to the listeners. *)
Record UrlChange := mkUrlChange {
  tabId : key;
  url : string;
  oldUrl : value;
}.

Global Instance UrlChange_eq_dec : EqDecision UrlChange.
Proof. solve_decision. Defined.

(** A navigation event [{tabId, frameId, url}]. *)
Record NavEvent := mkNavEvent {
  nav_tabId : key;
  nav_frameId : Z;
  nav_url : string;
}.

(** A live tab [{id, url}] of the snapshot. *)
Record Tab := mkTab {
  tab_id : key;
  tab_url : string;
}.

(** What the module does to the outside, in the order it does it. *)
Inductive effect :=
| StoreSet (k : key) (rec : loc)        (* stateDb.set(k, rec) *)
| StoreRemove (k : key)                 (* stateDb.remove(k) *)
| Call (f : fn) (arg : UrlChange)       (* fn(arg) *)
| ConsoleError (err : value).           (* console.error(err) *)

Global Instance effect_eq_dec : EqDecision effect.
Proof. solve_decision. Defined.

Record State := mkState {
  cache : gmap key loc;
  listeners : list fn;
  heap : heap_t;
  trace : list effect;
}.

Definition with_cache (c : gmap key loc) (st : State) : State :=
  mkState c (listeners st) (heap st) (trace st).

Definition with_listeners (ls : list fn) (st : State) : State :=
  mkState (cache st) ls (heap st) (trace st).

Definition with_heap (h : heap_t) (st : State) : State :=
  mkState (cache st) (listeners st) h (trace st).

Definition emit (e : effect) (st : State) : State :=
  mkState (cache st) (listeners st) (heap st) (trace st ++ [e]).

(** The module as loaded: nothing cached, nobody listening. *)
Definition init : State := mkState ∅ [] ∅ [].

(** How a call of [set] ends: it returns, or a TypeError escapes it.
    Either way the state carries what was done up to that point. *)
Inductive completion :=
| Normal (st : State)
| Throw (st : State).

Definition state_of (c : completion) : State :=
  match c with Normal st | Throw st => st end.

(** [cache.get(tabId)] as a value. *)
Definition cache_get (st : State) (tabId : key) : value :=
  match cache st !! tabId with
  | Some l => VRef l
  | None => VUndefined
  end.

(** [onOff(fn, state)]: [Set.prototype.add] keeps the first insertion,
    [Set.prototype.delete] removes the element. *)
Definition onOff (f : fn) (state : bool) (st : State) : State :=
  if state then
    if bool_decide (f ∈ listeners st) then st
    else with_listeners (listeners st ++ [f]) st
  else with_listeners (filter (λ g, g ≠ f) (listeners st)) st.

(** The loop of [get]. *)
Fixpoint get_walk (h : heap_t) (res : value) (keyPath : list string)
  : result value :=
  match keyPath with
  | [] => Ok res
  | k :: rest =>
      if truthy res then v ← get_prop h res k; get_walk h v rest
      else Ok res
  end.

Definition get (st : State) (tabId : key) (keyPath : list string)
  : result value :=
  get_walk (heap st) (cache_get st tabId) keyPath.

(** [cache.get(id)?.styleIds || false]. *)
Definition getStyleIds (st : State) (id : key) : value :=
  let v := match cache st !! id with
           | Some l => own_prop (heap st) l "styleIds"
           | None => VUndefined
           end in
  if truthy v then v else VBool false.

(** The loop of [set]:
    [obj = obj[key = args[i]] || !del && (obj[key] = {})]. *)
Fixpoint set_walk (del : bool) (h : heap_t) (obj : value) (args : list string)
  : heap_t * result value :=
  match args with
  | [] => (h, Ok obj)
  | k :: rest =>
      if truthy obj then
        match get_prop h obj k with
        | TypeError => (h, TypeError)
        | Ok v =>
            if truthy v then set_walk del h v rest
            else if del then set_walk del h (VBool false) rest
            else
              let l := alloc h in
              let h1 := <[l := ∅]> h in
              match set_prop h1 obj k (VRef l) with
              | TypeError => (h1, TypeError)
              | Ok h2 => set_walk del h2 (VRef l) rest
              end
        end
      else (h, Ok obj)
  end.

(** [set(tabId, ...path, value)].  [path] is what precedes the value in
    the argument list, as property keys; the last of them is [lastKey],
    and with no key at all [args.pop()] yields [undefined], whose
    property key is "undefined".  A call [set(tabId)] without further
    arguments is the empty path with the value [undefined]. *)
Definition set (tabId : key) (path : list string) (v : value) (st : State)
  : completion :=
  let lastKey := default "undefined" (last path) in
  let args := removelast path in
  let del := bool_decide (v = VUndefined) in
  let entry :=
    match cache st !! tabId with
    | Some l => Some (l, st)
    | None =>
        if del then None
        else
          let l := alloc (heap st) in
          Some (l, with_cache (<[tabId := l]> (cache st))
                     (with_heap (<[l := ∅]> (heap st)) st))
    end in
  match entry with
  | None => Normal st
  | Some (obj0, st1) =>
      match set_walk del (heap st1) (VRef obj0) args with
      | (h, TypeError) => Throw (with_heap h st1)
      | (h, Ok obj) =>
          let r := if negb del then set_prop h obj lastKey v
                   else if truthy obj then delete_prop h obj lastKey
                   else Ok h in
          match r with
          | TypeError => Throw (with_heap h st1)
          | Ok h' => Normal (emit (StoreSet tabId obj0) (with_heap h' st1))
          end
      end
  end.

Definition remove (tabId : key) (st : State) : State :=
  emit (StoreRemove tabId) (with_cache (delete tabId (cache st)) st).

Section Collaborators.

(** [supported] from [/js/urls]. *)
Variable supported : string → bool.

(** What a listener does when called: it returns ([None]) or throws
    ([Some err]).  Listeners that call back into this module while
    they are being notified are outside the model. *)
Variable invoke : fn → UrlChange → option value.

(** The body of [for (const fn of listeners)]. *)
Definition notify (arg : UrlChange) (st : State) (f : fn) : State :=
  match invoke f arg with
  | None => emit (Call f arg) st
  | Some err => emit (ConsoleError err) (emit (Call f arg) st)
  end.

(** The callback given to [onUrlChange]. *)
Definition onUrlChange_handler (ev : NavEvent) (st : State) : State :=
  if truthy (VNum (nav_frameId ev)) then st
  else
    let '(obj, old, st1) :=
      match cache st !! nav_tabId ev with
      | Some l => (l, own_prop (heap st) l "url", st)
      | None =>
          let l := alloc (heap st) in
          (l, VUndefined,
           with_cache (<[nav_tabId ev := l]> (cache st))
             (with_heap (<[l := ∅]> (heap st)) st))
      end in
    let st2 :=
      with_heap (store_prop (heap st1) obj "url" (VStr (nav_url ev))) st1 in
    let st3 := emit (StoreSet (nav_tabId ev) obj) st2 in
    if negb (supported (nav_url ev)) then st3
    else
      foldl (notify (mkUrlChange (nav_tabId ev) (nav_url ev) old))
            st3 (listeners st3).

(** The body of the first loop of the [stateDb.ready] callback. *)
Definition reconcile_tab (dbData : gmap key loc) (st : State) (tab : Tab)
  : State :=
  if supported (tab_url tab) then
    let '(data, dirty, h1) :=
      match dbData !! tab_id tab with
      | None =>
          let l := alloc (heap st) in (l, true, <[l := ∅]> (heap st))
      | Some l =>
          (l,
           bool_decide (own_prop (heap st) l "url" ≠ VStr (tab_url tab)),
           heap st)
      end in
    let st1 :=
      if dirty then
        emit (StoreSet (tab_id tab) data)
          (with_heap (store_prop h1 data "url" (VStr (tab_url tab))) st)
      else st in
    with_cache (<[tab_id tab := data]> (cache st1)) st1
  else st.

(** The body of the second loop. *)
Definition sweep_key (st : State) (k : key) : State :=
  if key_ge0 k && negb (bool_decide (k ∈ dom (cache st)))
  then emit (StoreRemove k) st
  else st.

(** The callback of [stateDb.ready]: [dbData] is the persisted mapping,
    whose records live in the heap, and [tabs] the live tabs.  The keys
    are visited in the order of [map_to_list]; the insertion order of
    the [Map] is not modelled. *)
Definition stateDb_ready_handler
    (dbData : gmap key loc) (tabs : list Tab) (st : State) : State :=
  let st1 := foldl (reconcile_tab dbData) st tabs in
  foldl sweep_key st1 (map_to_list dbData).*1.

End Collaborators.

(** A value the walk of [set] can step over without throwing: an
    object, or a falsy value (which stops the walk or is replaced). *)
Definition passable (v : value) : bool :=
  match v with
  | VRef _ => true
  | _ => negb (truthy v)
  end.

(** ** Inherited members

    The objects of the heap are ordinary objects: what they do not have
    themselves they inherit from [Object.prototype].  For a key in the
    list below that the object does not have, the source's [obj[key]]
    reads the built-in member (a function; for [__proto__] the
    prototype itself), and the source's [obj.__proto__ = x] runs the
    built-in setter.  [own_prop] and [store_prop] have none of this, so
    they are the source's reads and writes on the other keys.  The
    primitives inherit in the same way from [Number.prototype],
    [Boolean.prototype] and [String.prototype], of which [get_prop]
    knows nothing either: where a property below depends on what is
    read along a path, it asks for the values read from to be objects
    ([own_walk]). *)

(** The names of the properties of [Object.prototype] (ECMAScript,
    Properties of the Object Prototype Object, with the legacy
    accessors). *)
Definition Object_prototype : list string :=
  ["constructor"; "hasOwnProperty"; "isPrototypeOf"; "propertyIsEnumerable";
   "toLocaleString"; "toString"; "valueOf"; "__proto__";
   "__defineGetter__"; "__defineSetter__";
   "__lookupGetter__"; "__lookupSetter__"].

Definition inherited (k : string) : bool := bool_decide (k ∈ Object_prototype).

(** No key of the path names a member of [Object.prototype]. *)
Definition own_keys (path : list string) : bool :=
  forallb (λ k, negb (inherited k)) path.


(** ** Reading the trace *)

(** What notifying one listener adds to the trace: the call, and the
    logged error when the call throws. *)
Definition delivered (invoke : fn → UrlChange → option value)
    (arg : UrlChange) (f : fn) : list effect :=
  Call f arg ::
  match invoke f arg with
  | Some err => [ConsoleError err]
  | None => []
  end.

(** The listener calls in a trace, in order. *)
Definition calls (tr : list effect) : list (fn * UrlChange) :=
  omap (λ e, match e with Call f arg => Some (f, arg) | _ => None end) tr.

(** The records handed to [stateDb.set] under key [k], in order. *)
Definition writes_of (k : key) (tr : list effect) : list loc :=
  omap (λ e, match e with
             | StoreSet k' l => if decide (k' = k) then Some l else None
             | _ => None
             end) tr.

(** The keys handed to [stateDb.remove], in order. *)
Definition removed (tr : list effect) : list key :=
  omap (λ e, match e with StoreRemove k => Some k | _ => None end) tr.

(** ** The snapshot delivered by [stateDb.ready]

    What the store and the browser guarantee about [[dbData, tabs]]:
    tab ids are unique among the live tabs, every persisted record is an
    object of the heap, and no two keys share a record. *)
Definition snapshot_wf (dbData : gmap key loc) (tabs : list Tab) (h : heap_t)
  : Prop :=
  NoDup (tab_id <$> tabs) ∧
  map_Forall (λ _ l, is_Some (h !! l)) dbData ∧
  NoDup (map_to_list dbData).*2.

Global Instance snapshot_wf_dec dbData tabs h :
  Decision (snapshot_wf dbData tabs h).
Proof. unfold snapshot_wf. apply _. Defined.

(** The wording of the specification, for comparison with [key_ge0]:
    the key parses as a non-negative integer, that is, it is such a
    number or a string of decimal digits. *)
Definition spec_parses_as_tab_id (k : key) : bool :=
  match k with
  | KNum z => 0 <=? z
  | KStr s =>
      match ToNumber.dec_digits s 0 0 with
      | (_, S _, EmptyString) => true
      | _ => false
      end
  end.

(** Strings of decimal digits, for the comparison of the two. *)
Definition is_digit (c : ascii) : bool :=
  if ToNumber.digit_val c is Some _ then true else false.

Fixpoint all_digits (s : string) : bool :=
  match s with
  | String c s' => if ToNumber.digit_val c is Some _ then all_digits s' else false
  | EmptyString => true
  end.

(** ** The rest of the module

    What the claims do not mention: the iterators, the lifecycle hooks
    and one more reading of the trace. *)

(** The keys handed to [stateDb.set], in order. *)
Definition written (tr : list effect) : list key :=
  omap (λ e, match e with StoreSet k _ => Some k | _ => None end) tr.

(** [keys()] and [entries()]: the iterators of the cache, as the list of
    what they yield.  The order is that of [map_to_list]; the insertion
    order of the [Map] is not modelled. *)
Definition keys (st : State) : list key := (map_to_list (cache st)).*1.
Definition entries (st : State) : list (key * loc) := map_to_list (cache st).

(** The tab lifecycle events the module subscribes to. *)
Inductive TabEvent :=
| TabRemoved (tabId : key)                  (* chrome.tabs.onRemoved *)
| TabReplaced (added removed : key).        (* chrome.tabs.onReplaced *)

(** The listeners of [chrome.tabs.onRemoved] and [onReplaced]:
    [toggleListener(event, true, fn)] subscribes [fn], and the module
    does so only when [process.env.MV3] is falsy. *)
Definition lifecycle_hook (MV3 : bool) (e : TabEvent) (st : State) : State :=
  if negb MV3 then
    match e with
    | TabRemoved tabId => remove tabId st
    | TabReplaced added removed => remove removed st
    end
  else st.

(** ** Sample collaborators and inputs

    Concrete instances of the collaborators, used where a property is
    evaluated on an input. *)

(** A URL predicate that accepts the http and https schemes. *)
Definition http_only (u : string) : bool := String.prefix "http" u.

(** Listeners that all return. *)
Definition all_return : fn → UrlChange → option value := λ _ _, None.

(** Listeners of which number 1 throws. *)
Definition second_throws : fn → UrlChange → option value :=
  λ f _, if (f =? 1)%nat then Some (VStr "boom") else None.

(** A tab with a record that holds only its URL. *)
Definition tab7 : key := KNum 7.
Definition st_url_only : State :=
  state_of (set tab7 ["url"] (VStr "http://a") init).

(** The same tab with three listeners registered. *)
Definition st_listening : State :=
  onOff 2 true (onOff 1 true (onOff 0 true st_url_only)).

(** A tab whose record holds a number under [a]. *)
Definition st_a5 : State := state_of (set tab7 ["a"] (VNum 5) init).


(** The example of the specification: persisted
    [{5:{url:'http://old'}, 6:{url:'http://x'}, 'cfg':{}}] and one live
    tab [{id:5, url:'http://new'}]. *)
Definition heap_example : heap_t :=
  {[ 1%positive := {[ "url" := VStr "http://old" ]};
     2%positive := {[ "url" := VStr "http://x" ]};
     3%positive := ∅ ]}.
Definition db_example : gmap key loc :=
  {[ KNum 5 := 1%positive; KNum 6 := 2%positive; KStr "cfg" := 3%positive ]}.
Definition tabs_example : list Tab := [mkTab (KNum 5) "http://new"].
Definition st_example : State := mkState ∅ [] heap_example [].

(** Tab 6 navigated to an unsupported page before the store became
    ready; the snapshot then holds a record for 6 and one under the
    string key "1.5", and the live tab 6 is still on that page. *)
Definition st_navigated : State :=
  onUrlChange_handler http_only all_return
    (mkNavEvent (KNum 6) 0 "chrome://newtab") init.
Definition st_drift : State :=
  with_heap (<[2%positive := {[ "url" := VStr "chrome://newtab" ]}]>
               (<[3%positive := ∅]> (heap st_navigated))) st_navigated.
Definition db_drift : gmap key loc :=
  {[ KNum 6 := 2%positive; KStr "1.5" := 3%positive ]}.
Definition tabs_drift : list Tab := [mkTab (KNum 6) "chrome://newtab"].

(** ** Properties *)

(** *** Numeric coercion, on samples *)

Example of_string_empty : ToNumber.of_string EmptyString = ToNumber.Dec false 0 0.
Proof. reflexivity. Qed.

Example of_string_samples :
  map (λ s, ToNumber.ge0 (ToNumber.of_string s))
      ["12"; " 7 "; "0x1F"; "0o17"; "0b101"; "1.5"; ".5"; "5."; "1e3";
       "Infinity"; "-0"; "-1e-400"; " ";
       "-1"; "-Infinity"; "cfg"; "."; "0x"; "0b2"; "1e"; "12px"; "+-1";
       "- 1"; "1_000"; "-0x10"]
  = [true; true; true; true; true; true; true; true; true;
     true; true; true; true;
     false; false; false; false; false; false; false; false; false;
     false; false; false].
Proof. vm_compute. reflexivity. Qed.

Lemma digit_not_ws c : is_digit c = true → ToNumber.is_ws c = false.
Proof.
  intros Hc. destruct c as [[] [] [] [] [] [] [] []];
    vm_compute in Hc |- *; congruence.
Qed.

Lemma digit_not_mark c a :
  is_digit c = true →
  a ∈ ["x"; "X"; "o"; "O"; "b"; "B"; "-"; "+"; "."; "e"; "E"] →
  String.eqb (String c EmptyString) a = false.
Proof.
  intros Hc Ha.
  repeat (apply elem_of_cons in Ha as [->|Ha]);
    try (by apply elem_of_nil in Ha);
    destruct c as [[] [] [] [] [] [] [] []]; vm_compute in Hc |- *; congruence.
Qed.

Lemma digit_is_char c a b :
  is_digit c = true →
  a ∈ ["x"; "X"; "o"; "O"; "b"; "B"; "-"; "+"; "."; "e"; "E"] →
  b ∈ ["x"; "X"; "o"; "O"; "b"; "B"; "-"; "+"; "."; "e"; "E"] →
  ToNumber.is_char c a b = false.
Proof.
  intros Hc Ha Hb. unfold ToNumber.is_char.
  by rewrite !digit_not_mark.
Qed.

Lemma rev_app_rev_app s t u :
  String.rev_app (String.rev_app s t) u = String.rev_app t (s +:+ u).
Proof.
  revert t. induction s as [|a s IH]; intros t; simpl; [done|].
  by rewrite IH.
Qed.

Lemma rev_rev s : String.rev (String.rev s) = s.
Proof.
  unfold String.rev. rewrite rev_app_rev_app. cbn [String.rev_app].
  induction s as [|a s IH]; [done|].
  change (String a (s +:+ EmptyString) = String a s). by rewrite IH.
Qed.

Lemma all_digits_rev_app s t :
  all_digits s = true → all_digits t = true →
  all_digits (String.rev_app s t) = true.
Proof.
  revert t. induction s as [|a s IH]; intros t Hs Ht; simpl in *; [done|].
  destruct (ToNumber.digit_val a) eqn:Ha; [|done].
  apply IH; [done|]. simpl. by rewrite Ha.
Qed.

Lemma all_digits_skip_ws s : all_digits s = true → ToNumber.skip_ws s = s.
Proof.
  destruct s as [|c s]; simpl; [done|]. intros Hs.
  rewrite digit_not_ws; [done|]. unfold is_digit.
  by destruct (ToNumber.digit_val c).
Qed.

Lemma all_digits_trim s : all_digits s = true → ToNumber.trim s = s.
Proof.
  intros Hs. unfold ToNumber.trim.
  rewrite (all_digits_skip_ws s Hs), all_digits_skip_ws, rev_rev; [done|].
  by apply all_digits_rev_app.
Qed.

Lemma dec_digits_all s acc cnt n c :
  ToNumber.dec_digits s acc cnt = (n, c, EmptyString) → all_digits s = true.
Proof.
  revert acc cnt. induction s as [|a s IH]; intros acc cnt; simpl; [done|].
  destruct (ToNumber.digit_val a); [apply IH|done].
Qed.

Lemma dec_digits_count s acc cnt n c r :
  ToNumber.dec_digits s acc cnt = (n, c, r) → (cnt ≤ c)%nat.
Proof.
  revert acc cnt. induction s as [|a s IH]; intros acc cnt; simpl.
  - intros [= _ <- _]. done.
  - destruct (ToNumber.digit_val a).
    + intros E%IH. lia.
    + intros [= _ <- _]. done.
Qed.

(** Every key the specification calls a tab id passes the test of the
    code: a non-negative integer, or a string of decimal digits. *)
Lemma spec_tab_id_ge0 (k : key) :
  spec_parses_as_tab_id k = true → key_ge0 k = true.
Proof.
  destruct k as [z|s]; simpl.
  - intros Hz%Z.leb_le. unfold key_ge0. simpl.
    destruct (Z.ltb_spec z 0); [lia|done].
  - destruct (ToNumber.dec_digits s 0 0) as [[n c] r] eqn:Hd.
    destruct c as [|c]; [done|]. destruct r; [|done]. intros _.
    pose proof (dec_digits_all _ _ _ _ _ Hd) as Hall.
    destruct s as [|a s]; [by simplify_eq/=|].
    assert (is_digit a = true) as Ha.
    { unfold is_digit. simpl in Hall. by destruct (ToNumber.digit_val a). }
    assert (ToNumber.non_decimal (String a s) = None) as Hnd.
    { destruct s as [|p [|c' r]]; simpl; try done.
      destruct (negb _); [done|].
      assert (is_digit p = true) as Hp.
      { unfold is_digit. simpl in Hall. destruct (ToNumber.digit_val a); [|done].
        by destruct (ToNumber.digit_val p). }
      rewrite !(digit_is_char p) by (done || set_solver). done. }
    assert (String.eqb (String a s) "Infinity" = false) as Hinf.
    { apply String.eqb_neq. intros [= -> _]. vm_compute in Ha. done. }
    unfold key_ge0, to_number, ToNumber.of_string.
    rewrite (all_digits_trim _ Hall).
    change (String.eqb (String a s) EmptyString) with false. cbv iota.
    rewrite Hnd, !(digit_is_char a) by (done || set_solver).
    unfold ToNumber.unsigned_decimal. rewrite Hinf, Hd. done.
Qed.

(** *** Reads: [get] and [getStyleIds] *)

Lemma get_walk_falsy h v keyPath :
  truthy v = false → get_walk h v keyPath = Ok v.
Proof. intros Hv. destruct keyPath as [|k rest]; simpl; [done|]. by rewrite Hv. Qed.








(** *** Writes: [set] *)

Lemma alloc_fresh (h : heap_t) : h !! alloc h = None.
Proof. unfold alloc. apply not_elem_of_dom, is_fresh. Qed.

Lemma alloc_ne (h : heap_t) l o : h !! l = Some o → alloc h ≠ l.
Proof. intros H E. rewrite <- E, alloc_fresh in H. done. Qed.

Lemma own_prop_lookup (h : heap_t) l o k :
  h !! l = Some o → own_prop h l k = default VUndefined (o !! k).
Proof. intros H. unfold own_prop. by rewrite H. Qed.

Lemma view_atom n h v : (∀ l, v ≠ VRef l) → view n h v = Some (Atom v).
Proof. intros Hv. destruct n, v; try done; by destruct (Hv l). Qed.

Lemma view_singleton n (h : heap_t) l k v t :
  h !! l = Some {[k := v]} → view n h v = Some t →
  view (S n) h (VRef l) = Some (Obj [(k, t)]).
Proof.
  intros Hl Hv. simpl. rewrite Hl. simpl. rewrite map_to_list_singleton. simpl.
  by rewrite Hv.
Qed.

Lemma view_empty n (h : heap_t) l :
  h !! l = Some ∅ → view (S n) h (VRef l) = Some (Obj []).
Proof. intros Hl. simpl. rewrite Hl. simpl. by rewrite map_to_list_empty. Qed.

Lemma set_fresh_ab T st :
  cache st !! T = None →
  ∃ l l2 h,
    l ≠ l2 ∧
    h !! l = Some {["a" := VRef l2]} ∧
    h !! l2 = Some {["b" := VNum 1]} ∧
    set T ["a"; "b"] (VNum 1) st =
    Normal (mkState (<[T := l]> (cache st)) (listeners st) h
              (trace st ++ [StoreSet T l])).
Proof.
  intros HT.
  pose proof (alloc_ne (<[alloc (heap st) := ∅]> (heap st)) (alloc (heap st)) ∅
                (lookup_insert_eq _ _ _)) as Hne.
  unfold set. rewrite HT, bool_decide_eq_false_2 by done.
  cbn -[alloc own_prop store_prop].
  generalize dependent (alloc (heap st)). intros l Hne.
  rewrite (own_prop_lookup _ l ∅) by apply lookup_insert_eq.
  rewrite lookup_empty. cbn -[alloc own_prop store_prop].
  generalize dependent (alloc (<[l:=∅]> (heap st))). intros l2 Hne.
  unfold store_prop.
  rewrite (lookup_insert_ne _ l2 l) by done. rewrite lookup_insert_eq.
  cbn. rewrite (lookup_insert_ne _ l l2) by done. rewrite lookup_insert_eq.
  cbn. rewrite !insert_empty.
  eexists l, l2, _. split; [done|].
  split; [|split]; cycle 2.
  - reflexivity.
  - cbn. rewrite lookup_insert_ne by done. apply lookup_insert_eq.
  - cbn. apply lookup_insert_eq.
Qed.

Lemma set_delete_ab T st l l2 x :
  cache st !! T = Some l →
  heap st !! l = Some {["a" := VRef l2]} →
  heap st !! l2 = Some {["b" := x]} →
  set T ["a"; "b"] VUndefined st =
  Normal (mkState (cache st) (listeners st) (alter (delete "b") l2 (heap st))
            (trace st ++ [StoreSet T l])).
Proof.
  intros HT Hl Hl2. unfold set. rewrite HT. cbn.
  rewrite (own_prop_lookup _ _ _ _ Hl). rewrite lookup_singleton_eq. cbn.
  done.
Qed.

(** C3: on a tab that is not tracked, [set(T,'a','b',1)] returns, a
    following [get(T,'a','b')] is [1], and the record handed to the
    store under [T] is [{a:{b:1}}]; [set(T,'a','b',undefined)] after it
    returns too and hands over the same record, now [{a:{}}]. *)
Theorem set_get_delete_roundtrip (T : key) (st : State) :
  cache st !! T = None →
  ∃ st1 l,
    set T ["a"; "b"] (VNum 1) st = Normal st1 ∧
    get st1 T ["a"; "b"] = Ok (VNum 1) ∧
    cache st1 !! T = Some l ∧
    trace st1 = trace st ++ [StoreSet T l] ∧
    view 2 (heap st1) (VRef l) = Some (Obj [("a", Obj [("b", Atom (VNum 1))])]) ∧
    ∃ st2,
      set T ["a"; "b"] VUndefined st1 = Normal st2 ∧
      cache st2 !! T = Some l ∧
      trace st2 = trace st1 ++ [StoreSet T l] ∧
      view 2 (heap st2) (VRef l) = Some (Obj [("a", Obj [])]).
Proof.
  intros HT.
  destruct (set_fresh_ab T st HT) as (l & l2 & h & Hne & Hl & Hl2 & E).
  eexists _, l. split; [exact E|]. simpl.
  split.
  { unfold get, cache_get. simpl. rewrite lookup_insert_eq. simpl.
    rewrite (own_prop_lookup _ _ _ _ Hl), lookup_singleton_eq. simpl.
    by rewrite (own_prop_lookup _ _ _ _ Hl2), lookup_singleton_eq. }
  split; [apply lookup_insert_eq|]. split; [done|].
  split.
  { apply (view_singleton 1 h l "a" (VRef l2)); [done|].
    by apply (view_singleton 0 h l2 "b" (VNum 1)). }
  eexists. split.
  { apply (set_delete_ab T _ l l2 (VNum 1)); [apply lookup_insert_eq|done..]. }
  simpl. split; [apply lookup_insert_eq|]. split; [done|].
  apply (view_singleton 1 _ l "a" (VRef l2)).
  - by rewrite lookup_alter_ne.
  - apply view_empty. rewrite lookup_alter_eq, Hl2. simpl.
    by rewrite delete_singleton_eq.
Qed.

Lemma set_get_delete_roundtrip_witness :
  cache init !! tab7 = None ∧
  ∃ st1 l,
    set tab7 ["a"; "b"] (VNum 1) init = Normal st1 ∧
    get st1 tab7 ["a"; "b"] = Ok (VNum 1) ∧
    cache st1 !! tab7 = Some l ∧
    trace st1 = trace init ++ [StoreSet tab7 l] ∧
    view 2 (heap st1) (VRef l) = Some (Obj [("a", Obj [("b", Atom (VNum 1))])]) ∧
    ∃ st2,
      set tab7 ["a"; "b"] VUndefined st1 = Normal st2 ∧
      cache st2 !! tab7 = Some l ∧
      trace st2 = trace st1 ++ [StoreSet tab7 l] ∧
      view 2 (heap st2) (VRef l) = Some (Obj [("a", Obj [])]).
Proof.
  split; [reflexivity|].
  apply (set_get_delete_roundtrip tab7 init). reflexivity.
Defined.

Lemma set_walk_falsy del h obj args :
  truthy obj = false → set_walk del h obj args = (h, Ok obj).
Proof. intros Hv. destruct args; simpl; [done|]. by rewrite Hv. Qed.

Lemma get_prop_truthy h obj k :
  truthy obj = true → ∃ v, get_prop h obj k = Ok v.
Proof. destruct obj; simpl; try discriminate; eauto. Qed.

Lemma passable_truthy v : passable v = true → truthy v = true → ∃ l, v = VRef l.
Proof.
  destruct v; simpl; intros Hp Ht; eauto; try discriminate;
    rewrite Ht in Hp; discriminate.
Qed.

Lemma set_walk_del h obj args :
  ∃ y, set_walk true h obj args = (h, Ok y) ∧
       ∀ x, get_walk h obj args = Ok x →
            if truthy x then y = x else truthy y = false.
Proof.
  revert obj. induction args as [|k rest IH]; intros obj; simpl.
  - exists obj. split; [done|]. intros x [= <-]. by destruct (truthy obj) eqn:E.
  - destruct (truthy obj) eqn:Hobj.
    + destruct (get_prop_truthy h obj k Hobj) as [v Hv]. rewrite Hv. simpl.
      destruct (truthy v) eqn:Htv; [apply IH|].
      rewrite set_walk_falsy by done. exists (VBool false). split; [done|].
      rewrite get_walk_falsy by done. intros x [= <-]. by rewrite Htv.
    + exists obj. split; [done|]. intros x [= <-]. by rewrite Hobj.
Qed.

Lemma fresh_object_clean (h : heap_t) l k p :
  let l2 := alloc h in
  let h2 := store_prop (<[l2 := ∅]> h) l k (VRef l2) in
  get_walk h2 (VRef l2) p = Ok (VRef l2) ∨ get_walk h2 (VRef l2) p = Ok VUndefined.
Proof.
  intros l2 h2.
  assert (∀ k', own_prop h2 l2 k' = VRef l2 ∨ own_prop h2 l2 k' = VUndefined) as Hown.
  { intros k'. unfold own_prop, h2, store_prop.
    destruct (decide (l = l2)) as [->|Hne].
    - rewrite !lookup_insert_eq. simpl.
      destruct (decide (k = k')) as [->|Hk].
      + rewrite lookup_insert_eq. by left.
      + rewrite lookup_insert_ne, lookup_empty by done. by right.
    - rewrite lookup_insert_ne, lookup_insert_eq by done. simpl.
      rewrite lookup_empty. by right. }
  induction p as [|k' p IH]; simpl; [by left|].
  destruct (Hown k') as [-> | ->]; simpl; [apply IH|].
  right. by apply get_walk_falsy.
Qed.

Lemma empty_object_clean (h : heap_t) l p :
  h !! l = Some ∅ →
  get_walk h (VRef l) p = Ok (VRef l) ∨ get_walk h (VRef l) p = Ok VUndefined.
Proof.
  intros Hl. destruct p as [|k p]; simpl; [by left|]. right.
  unfold own_prop. rewrite Hl. simpl. rewrite lookup_empty. simpl.
  by apply get_walk_falsy.
Qed.

Lemma set_walk_passable h l args :
  (∀ p x, p `prefix_of` args → get_walk h (VRef l) p = Ok x → passable x = true) →
  ∃ h' l', set_walk false h (VRef l) args = (h', Ok (VRef l')).
Proof.
  revert h l. induction args as [|k rest IH]; intros h l Hp; simpl; [by eauto|].
  destruct (truthy (own_prop h l k)) eqn:Hv.
  - destruct (passable_truthy (own_prop h l k)) as [l1 Hl1]; [|done|].
    { apply (Hp [k]); [by apply prefix_cons, prefix_nil|done]. }
    rewrite Hl1. apply IH. intros p x Hpre Hx.
    apply (Hp (k :: p)); [by apply prefix_cons|].
    simpl. by rewrite Hl1.
  - apply IH. intros p x _ Hx.
    destruct (fresh_object_clean h l k p) as [E|E]; rewrite E in Hx; by simplify_eq.
Qed.

Lemma with_heap_id st : with_heap (heap st) st = st.
Proof. by destruct st. Qed.

Lemma set_delete_untracked T path st :
  cache st !! T = None → set T path VUndefined st = Normal st.
Proof. intros HT. unfold set. by rewrite HT. Qed.

(** A delete on a tracked tab, by the value the walk ends in. *)
Lemma set_delete_tracked T path st l0 :
  cache st !! T = Some l0 →
  ∃ y,
    (∀ x, get st T (removelast path) = Ok x →
          if truthy x then y = x else truthy y = false) ∧
    set T path VUndefined st =
    match (if truthy y
           then delete_prop (heap st) y (default "undefined" (last path))
           else Ok (heap st)) with
    | Ok h' => Normal (emit (StoreSet T l0) (with_heap h' st))
    | TypeError => Throw st
    end.
Proof.
  intros HT. unfold set, get, cache_get. rewrite HT. simpl.
  destruct (set_walk_del (heap st) (VRef l0) (removelast path)) as (y & E & Hy).
  exists y. split; [done|]. rewrite E.
  destruct (truthy y); [|done].
  destruct (delete_prop _ _ _); [done|]. by rewrite with_heap_id.
Qed.



Lemma delete_prop_shape h y k h' :
  delete_prop h y k = Ok h' →
  (h' = h ∧ ∀ l, y ≠ VRef l) ∨ ∃ l, y = VRef l ∧ h' = alter (delete k) l h.
Proof.
  destruct y; simpl; intros E; try discriminate; simplify_eq; eauto.
  destruct (string_prop s k); simplify_eq. by left.
Qed.

Lemma alter_delete_sub (h : heap_t) l0 k0 l k x :
  alter (delete k0) l0 h !! l ≫= (.!! k) = Some x → h !! l ≫= (.!! k) = Some x.
Proof.
  destruct (decide (l0 = l)) as [->|Hne].
  - rewrite lookup_alter_eq. destruct (h !! l) as [o|]; simpl; [|done].
    destruct (decide (k0 = k)) as [->|Hk].
    + by rewrite lookup_delete_eq.
    + by rewrite lookup_delete_ne.
  - by rewrite lookup_alter_ne.
Qed.

(** C10: [set] with [undefined] as value is a deletion.  It never adds
    a tab to the cache and never allocates; the heap is left as it was
    or loses [lastKey] in one object, so every property present
    afterwards was present before with the same value and nothing,
    [undefined] included, is stored.  When the record exists and the
    intermediate keys lead to an object, the call returns and [lastKey]
    is gone from that object. *)
Theorem set_undefined_deletes (T : key) (path : list string) (st : State) :
  let lastKey := default "undefined" (last path) in
  let st' := state_of (set T path VUndefined st) in
  cache st' = cache st ∧
  dom (heap st') = dom (heap st) ∧
  (heap st' = heap st ∨ ∃ l, heap st' = alter (delete lastKey) l (heap st)) ∧
  (∀ l k x, heap st' !! l ≫= (.!! k) = Some x →
            heap st !! l ≫= (.!! k) = Some x) ∧
  (∀ l, is_Some (cache st !! T) → get st T (removelast path) = Ok (VRef l) →
        set T path VUndefined st = Normal st' ∧
        heap st' = alter (delete lastKey) l (heap st) ∧
        own_prop (heap st') l lastKey = VUndefined).
Proof.
  cbv zeta.
  destruct (cache st !! T) as [l0|] eqn:HT; cycle 1.
  { rewrite set_delete_untracked by done. simpl.
    do 3 (split; [by eauto|]). split; [done|]. by intros l [? [=]]. }
  destruct (set_delete_tracked T path st l0 HT) as (y & Hy & ->).
  assert (∀ l, get st T (removelast path) = Ok (VRef l) → y = VRef l) as Hy'.
  { intros l Hl. by apply (Hy _ Hl). }
  clear Hy. destruct (truthy y) eqn:Hty; cycle 1.
  { simpl. do 3 (split; [by eauto|]). split; [done|].
    intros l _ Hl. rewrite (Hy' l Hl) in Hty. done. }
  destruct (delete_prop (heap st) y _) as [h'|] eqn:Hd; simpl; cycle 1.
  { do 3 (split; [by eauto|]). split; [done|].
    intros l _ Hl. rewrite (Hy' l Hl) in Hd. done. }
  destruct (delete_prop_shape _ _ _ _ Hd) as [[-> Hnr]|(l & -> & ->)].
  { do 3 (split; [by eauto|]). split; [done|].
    intros l _ Hl. by destruct (Hnr l (Hy' l Hl)). }
  split; [done|]. split; [by rewrite dom_alter_L|]. split; [by eauto|].
  split; [intros ???; apply alter_delete_sub|].
  intros l' _ Hl. specialize (Hy' _ Hl). simplify_eq.
  split; [done|]. split; [done|].
  unfold own_prop. rewrite lookup_alter_eq.
  destruct (heap st !! l'); simpl; [|done]. by rewrite lookup_delete_eq.
Qed.

(** *** Registration *)

(** [listeners] is a set: registering and unregistering keep it free of
    duplicates, and a registered callback keeps its place. *)
Lemma onOff_NoDup (f : fn) (state : bool) (st : State) :
  NoDup (listeners st) → NoDup (listeners (onOff f state st)).
Proof.
  intros Hnd. unfold onOff. destruct state.
  - case_bool_decide; [done|]. simpl. apply NoDup_app.
    split; [done|]. split; [|apply NoDup_singleton].
    intros g Hg ->%list_elem_of_singleton. done.
  - simpl. by apply NoDup_filter.
Qed.

Lemma onOff_registered (f : fn) (st : State) :
  f ∈ listeners (onOff f true st) ∧ f ∉ listeners (onOff f false st).
Proof.
  unfold onOff. split.
  - case_bool_decide; [done|]. simpl. set_solver.
  - simpl. intros [Hf _]%list_elem_of_filter. by apply Hf.
Qed.

(** *** Eviction *)

(** C8: [remove(T)] drops the cache record of [T], so that every later
    [get(T, ...)] is [undefined], and issues one store deletion for [T]
    and nothing else; the other tabs and the heap are left alone. *)
Theorem remove_evicts (T : key) (st : State) :
  let st' := remove T st in
  cache st' !! T = None ∧
  (∀ path, get st' T path = Ok VUndefined) ∧
  trace st' = trace st ++ [StoreRemove T] ∧
  (∀ T', T' ≠ T → cache st' !! T' = cache st !! T') ∧
  heap st' = heap st ∧
  listeners st' = listeners st.
Proof.
  simpl. repeat split.
  - apply lookup_delete_eq.
  - intros path. unfold get, cache_get. simpl. rewrite lookup_delete_eq.
    by apply get_walk_falsy.
  - intros T' HT. simpl. by rewrite lookup_delete_ne.
Qed.

(** *** The navigation handler *)

Section Navigation.

Variable supported : string → bool.
Variable invoke : fn → UrlChange → option value.

Lemma notify_trace arg st f :
  notify invoke arg st f =
  mkState (cache st) (listeners st) (heap st)
          (trace st ++ delivered invoke arg f).
Proof.
  unfold notify, delivered, emit. destruct (invoke f arg); simpl; [|done].
  by rewrite <- app_assoc.
Qed.

Lemma notify_all_trace arg fs st :
  foldl (notify invoke arg) st fs =
  mkState (cache st) (listeners st) (heap st)
          (trace st ++ fs ≫= delivered invoke arg).
Proof.
  revert st. induction fs as [|f fs IH]; intros st; simpl.
  - rewrite app_nil_r. by destruct st.
  - rewrite IH, notify_trace. simpl. by rewrite <- app_assoc.
Qed.

Lemma calls_app tr1 tr2 : calls (tr1 ++ tr2) = calls tr1 ++ calls tr2.
Proof. apply omap_app. Qed.

Lemma calls_delivered arg fs :
  calls (fs ≫= delivered invoke arg) = (λ f, (f, arg)) <$> fs.
Proof.
  induction fs as [|f fs IH]; [done|].
  change ((f :: fs) ≫= delivered invoke arg)
    with (delivered invoke arg f ++ fs ≫= delivered invoke arg).
  rewrite calls_app, IH. unfold delivered.
  by destruct (invoke f arg).
Qed.

(** C9: an event of a frame other than the top frame changes nothing:
    cache, heap, listeners and trace are what they were. *)
Theorem subframe_navigation_ignored (ev : NavEvent) (st : State) :
  nav_frameId ev ≠ 0 → onUrlChange_handler supported invoke ev st = st.
Proof.
  intros Hf. unfold onUrlChange_handler. simpl.
  destruct (Z.eqb_spec (nav_frameId ev) 0); [done|]. done.
Qed.

Lemma get_url_of_record st T l :
  cache st !! T = Some l → get st T ["url"] = Ok (own_prop (heap st) l "url").
Proof. intros HT. unfold get, cache_get. by rewrite HT. Qed.

Lemma own_prop_store_eq h l k x : own_prop (store_prop h l k x) l k = x.
Proof.
  unfold own_prop, store_prop. rewrite lookup_insert_eq. simpl.
  by rewrite lookup_insert_eq.
Qed.

Lemma called_once (arg : UrlChange) (f : fn) (fs : list fn) :
  NoDup fs → f ∈ fs →
  length (filter (λ c, c = (f, arg)) ((λ g, (g, arg)) <$> fs)) = 1%nat.
Proof.
  induction 1 as [|g fs Hg Hnd IH]; intros Hin; [by apply elem_of_nil in Hin|].
  rewrite fmap_cons, filter_cons. apply elem_of_cons in Hin.
  destruct (decide (g = f)) as [->|Hne].
  - rewrite decide_True by done. simpl. f_equal.
    apply length_zero_iff_nil, elem_of_nil_inv.
    intros c [-> Hc]%list_elem_of_filter.
    apply list_elem_of_fmap in Hc as (g & E & Hin'). by simplify_eq.
  - rewrite decide_False by congruence. destruct Hin as [->|Hin]; [done|].
    by apply IH.
Qed.

(** The state once the record of the tab has its new URL and the
    store has been told: everything the handler does before it looks
    at [supported]. *)
Lemma top_frame_update ev st :
  nav_frameId ev = 0 →
  ∃ l old,
    get st (nav_tabId ev) ["url"] = Ok old ∧
    match cache st !! nav_tabId ev with
    | Some l0 => l = l0
    | None => heap st !! l = None
    end ∧
    let st3 :=
      mkState (<[nav_tabId ev := l]> (cache st)) (listeners st)
        (<[l := <["url" := VStr (nav_url ev)]> (default ∅ (heap st !! l))]>
           (heap st))
        (trace st ++ [StoreSet (nav_tabId ev) l]) in
    onUrlChange_handler supported invoke ev st =
    if negb (supported (nav_url ev)) then st3
    else foldl (notify invoke (mkUrlChange (nav_tabId ev) (nav_url ev) old))
               st3 (listeners st).
Proof.
  intros Hf. unfold onUrlChange_handler. rewrite Hf. simpl.
  destruct (cache st !! nav_tabId ev) as [l0|] eqn:HT.
  - exists l0, (own_prop (heap st) l0 "url").
    split; [by apply get_url_of_record|]. split; [done|]. simpl.
    rewrite (insert_id (cache st)) by done. unfold store_prop, emit. simpl.
    by destruct (supported (nav_url ev)).
  - exists (alloc (heap st)), VUndefined.
    pose proof (alloc_fresh (heap st)) as Hfresh.
    split; [unfold get, cache_get; by rewrite HT|]. split; [done|]. simpl.
    unfold store_prop, emit. simpl. rewrite Hfresh, lookup_insert_eq. simpl.
    rewrite insert_insert_eq.
    by destruct (supported (nav_url ev)).
Qed.

(** C6: a top-frame navigation to an unsupported URL still gives the
    tab a cache record (the existing one, or a new object), sets its
    [url], hands the record to the store, and calls no listener. *)
Theorem unsupported_navigation_recorded (ev : NavEvent) (st : State) :
  nav_frameId ev = 0 →
  supported (nav_url ev) = false →
  let st' := onUrlChange_handler supported invoke ev st in
  ∃ l,
    cache st' !! nav_tabId ev = Some l ∧
    match cache st !! nav_tabId ev with
    | Some l0 => l = l0
    | None => heap st !! l = None
    end ∧
    heap st' !! l =
      Some (<["url" := VStr (nav_url ev)]> (default ∅ (heap st !! l))) ∧
    own_prop (heap st') l "url" = VStr (nav_url ev) ∧
    trace st' = trace st ++ [StoreSet (nav_tabId ev) l] ∧
    calls (trace st') = calls (trace st) ∧
    listeners st' = listeners st ∧
    (∀ T', T' ≠ nav_tabId ev → cache st' !! T' = cache st !! T').
Proof.
  intros Hf Hs. destruct (top_frame_update ev st Hf) as (l & old & _ & Hl & E).
  simpl in *. rewrite E, Hs. simpl. exists l. repeat split.
  - apply lookup_insert_eq.
  - done.
  - apply lookup_insert_eq.
  - unfold own_prop. rewrite lookup_insert_eq. simpl. by rewrite lookup_insert_eq.
  - rewrite calls_app. simpl. apply app_nil_r.
  - intros T' HT. by rewrite lookup_insert_ne.
Qed.

(** C4: a top-frame navigation to a supported URL calls every
    registered listener once, in registration order, with
    [{tabId, url, oldUrl}], where [oldUrl] is what [get(tabId, 'url')]
    gave before the event.  A listener that throws has its error
    logged and the remaining listeners are still called; the new URL
    stays in the cache record and the store write stays issued. *)
Theorem supported_navigation_notifies (ev : NavEvent) (st : State) :
  nav_frameId ev = 0 →
  supported (nav_url ev) = true →
  NoDup (listeners st) →
  let st' := onUrlChange_handler supported invoke ev st in
  ∃ l old tr,
    let arg := mkUrlChange (nav_tabId ev) (nav_url ev) old in
    get st (nav_tabId ev) ["url"] = Ok old ∧
    trace st' = trace st ++ StoreSet (nav_tabId ev) l :: tr ∧
    tr = listeners st ≫= delivered invoke arg ∧
    calls tr = (λ f, (f, arg)) <$> listeners st ∧
    (∀ f, f ∈ listeners st →
          length (filter (λ c, c = (f, arg)) (calls tr)) = 1%nat) ∧
    (∀ f err, f ∈ listeners st → invoke f arg = Some err →
              ConsoleError err ∈ tr) ∧
    cache st' !! nav_tabId ev = Some l ∧
    own_prop (heap st') l "url" = VStr (nav_url ev) ∧
    listeners st' = listeners st.
Proof.
  intros Hf Hs Hnd. destruct (top_frame_update ev st Hf) as (l & old & Hold & _ & E).
  simpl in *. rewrite E, Hs. simpl. rewrite notify_all_trace. simpl.
  exists l, old, (listeners st ≫= delivered invoke
                    (mkUrlChange (nav_tabId ev) (nav_url ev) old)).
  split; [done|]. split; [by rewrite <- app_assoc|]. split; [done|].
  split; [apply calls_delivered|].
  split; [intros f Hin; rewrite calls_delivered; by apply called_once|].
  split.
  { intros f err Hin Herr. apply list_elem_of_bind. exists f. split; [|done].
    unfold delivered. rewrite Herr. set_solver. }
  split; [apply lookup_insert_eq|]. split; [|done].
  unfold own_prop. rewrite lookup_insert_eq. simpl. by rewrite lookup_insert_eq.
Qed.

End Navigation.

(** *** The startup reconciler *)

Lemma removed_app tr1 tr2 : removed (tr1 ++ tr2) = removed tr1 ++ removed tr2.
Proof. apply omap_app. Qed.

Lemma writes_of_app k tr1 tr2 :
  writes_of k (tr1 ++ tr2) = writes_of k tr1 ++ writes_of k tr2.
Proof. apply omap_app. Qed.

Section Reconciler.
Variable supported : string → bool.
Variable dbData : gmap key loc.

Lemma reconcile_tab_skip st t :
  supported (tab_url t) = false → reconcile_tab supported dbData st t = st.
Proof. intros Hs. unfold reconcile_tab. by rewrite Hs. Qed.

Lemma reconcile_tab_step st t :
  supported (tab_url t) = true →
  ∃ l (dirty : bool),
    match dbData !! tab_id t with
    | Some d =>
        l = d ∧
        dirty = bool_decide (own_prop (heap st) d "url" ≠ VStr (tab_url t))
    | None => heap st !! l = None ∧ dirty = true
    end ∧
    reconcile_tab supported dbData st t =
    mkState (<[tab_id t := l]> (cache st)) (listeners st)
      (if dirty
       then <[l := <["url" := VStr (tab_url t)]> (default ∅ (heap st !! l))]>
              (heap st)
       else heap st)
      (trace st ++ if dirty then [StoreSet (tab_id t) l] else []).
Proof.
  intros Hs. unfold reconcile_tab. rewrite Hs.
  destruct (dbData !! tab_id t) as [d|] eqn:Hd.
  - exists d, (bool_decide (own_prop (heap st) d "url" ≠ VStr (tab_url t))).
    split; [done|].
    destruct (bool_decide _); simpl; [done|]. by rewrite app_nil_r.
  - exists (alloc (heap st)), true. pose proof (alloc_fresh (heap st)) as Hf.
    split; [done|]. simpl. unfold store_prop.
    by rewrite lookup_insert_eq, Hf, insert_insert_eq.
Qed.

Lemma sweep_trace ks st :
  foldl sweep_key st ks =
  mkState (cache st) (listeners st) (heap st)
    (trace st ++
     (StoreRemove <$> filter (λ k, key_ge0 k = true ∧ k ∉ dom (cache st)) ks)).
Proof.
  revert st. induction ks as [|k ks IH]; intros st; simpl.
  - rewrite app_nil_r. by destruct st.
  - rewrite filter_cons.
    destruct (decide (key_ge0 k = true ∧ k ∉ dom (cache st))) as [[Hk Hin]|Hn].
    + assert (sweep_key st k = emit (StoreRemove k) st) as ->.
      { unfold sweep_key. by rewrite Hk, bool_decide_eq_false_2. }
      rewrite IH. simpl. by rewrite <- app_assoc.
    + assert (sweep_key st k = st) as ->; [|apply IH].
      unfold sweep_key. destruct (key_ge0 k); [|done].
      rewrite bool_decide_eq_true_2; [done|].
      destruct (decide (k ∈ dom (cache st))); [done|naive_solver].
Qed.

(** What the first loop leaves alone. *)
Lemma live_pass_frame tabs st :
  let st' := foldl (reconcile_tab supported dbData) st tabs in
  listeners st' = listeners st ∧
  dom (heap st) ⊆ dom (heap st') ∧
  (∀ k, k ∉ tab_id <$> tabs → cache st' !! k = cache st !! k) ∧
  (∀ l, is_Some (heap st !! l) →
        (∀ t, t ∈ tabs → dbData !! tab_id t ≠ Some l) →
        heap st' !! l = heap st !! l) ∧
  ∃ tr, trace st' = trace st ++ tr ∧
        removed tr = [] ∧
        ∀ k, k ∉ tab_id <$> tabs → writes_of k tr = [].
Proof.
  revert st. induction tabs as [|t tabs IH]; intros st; simpl.
  - repeat split; try done. exists []. by rewrite app_nil_r.
  - destruct (IH (reconcile_tab supported dbData st t))
      as (IHl & IHd & IHc & IHh & tr & IHt & IHr & IHw).
    destruct (supported (tab_url t)) eqn:Hs.
    + destruct (reconcile_tab_step st t Hs) as (l & dirty & Hl & E).
      rewrite E in *. simpl in *. clear E.
      split; [done|]. split.
      { etrans; [|exact IHd]. destruct dirty; [|done].
        rewrite dom_insert_L. set_solver. }
      split.
      { intros k Hk. rewrite IHc by set_solver.
        rewrite lookup_insert_ne; [done|set_solver]. }
      split.
      { intros l' Hl' Hfr.
        assert (l ≠ l') as Hne.
        { destruct (dbData !! tab_id t) as [d|] eqn:Hd.
          - destruct Hl as [-> _]. intros ->.
            apply (Hfr t); [set_solver|done].
          - destruct Hl as [Hl _]. intros ->. rewrite Hl in Hl'.
            by destruct Hl'. }
        rewrite IHh.
        - destruct dirty; [|done]. by rewrite lookup_insert_ne.
        - destruct dirty; [|done]. by rewrite lookup_insert_ne.
        - intros t' Ht'. apply Hfr. set_solver. }
      exists ((if dirty then [StoreSet (tab_id t) l] else []) ++ tr).
      split; [by rewrite IHt, <- app_assoc|].
      split.
      * rewrite removed_app, IHr. by destruct dirty.
      * intros k Hk. rewrite writes_of_app, IHw by set_solver.
        destruct dirty; simpl; [|done].
        rewrite decide_False; [done|set_solver].
    + rewrite reconcile_tab_skip in * by done.
      split; [done|]. split; [done|].
      split; [intros k Hk; apply IHc; set_solver|].
      split; [intros l Hl Hfr; apply IHh; [done|]; intros t' Ht'; apply Hfr; set_solver|].
      exists tr. split; [done|]. split; [done|].
      intros k Hk. apply IHw. set_solver.
Qed.

Lemma removed_removes ks : removed (StoreRemove <$> ks) = ks.
Proof. induction ks as [|k ks IH]; [done|]. cbn. f_equal. exact IH. Qed.

Lemma shared_record_same_key (m : gmap key loc) :
  NoDup (map_to_list m).*2 →
  ∀ k1 k2 l, m !! k1 = Some l → m !! k2 = Some l → k1 = k2.
Proof.
  intros Hnd k1 k2 l H1%elem_of_map_to_list H2%elem_of_map_to_list.
  revert Hnd H1 H2. generalize (map_to_list m). intros kvs.
  induction kvs as [|[k l'] kvs IH]; simpl; [by intros _ ?%elem_of_nil|].
  intros [Hl' Hnd]%NoDup_cons [E1|H1]%elem_of_cons [E2|H2]%elem_of_cons.
  - congruence.
  - simplify_eq. destruct Hl'. by apply (list_elem_of_fmap_2 snd _ (k2, l')).
  - simplify_eq. destruct Hl'. by apply (list_elem_of_fmap_2 snd _ (k1, l')).
  - by apply IH.
Qed.

Lemma writes_of_removes k ks : writes_of k (StoreRemove <$> ks) = [].
Proof. induction ks; [done|]. simpl. done. Qed.

Lemma own_prop_url_insert (h : heap_t) l o u :
  own_prop (<[l := <["url" := VStr u]> o]> h) l "url" = VStr u.
Proof. unfold own_prop. rewrite lookup_insert_eq. simpl. by rewrite lookup_insert_eq. Qed.

(** C1: on a well-formed snapshot, every live tab with a supported URL
    ends up in the cache.  Its record is the persisted one when the
    snapshot has one for that id, and a new object otherwise; its [url]
    is the live URL.  A new record, or one whose persisted [url]
    differed, is handed to the store once under the tab id, the other
    fields of a reused record being kept; a record that already had the
    live URL is left as it is and nothing is written for it.  A live
    tab with an unsupported URL is not put in the cache and nothing is
    written for it. *)
Theorem reconcile_live_tabs (tabs : list Tab) (st : State) (t : Tab) :
  snapshot_wf dbData tabs (heap st) →
  t ∈ tabs →
  let st' := stateDb_ready_handler supported dbData tabs st in
  ∃ tr,
    trace st' = trace st ++ tr ∧
    if supported (tab_url t) then
      ∃ l,
        cache st' !! tab_id t = Some l ∧
        own_prop (heap st') l "url" = VStr (tab_url t) ∧
        match dbData !! tab_id t with
        | Some d =>
            l = d ∧
            if decide (own_prop (heap st) d "url" = VStr (tab_url t))
            then heap st' !! d = heap st !! d ∧
                 writes_of (tab_id t) tr = []
            else heap st' !! d =
                   Some (<["url" := VStr (tab_url t)]>
                           (default ∅ (heap st !! d))) ∧
                 writes_of (tab_id t) tr = [d]
        | None =>
            heap st !! l = None ∧
            heap st' !! l = Some {["url" := VStr (tab_url t)]} ∧
            writes_of (tab_id t) tr = [l]
        end
    else
      cache st' !! tab_id t = cache st !! tab_id t ∧
      writes_of (tab_id t) tr = [].
Proof.
  intros (Hnd & Halloc & Hinj') Hin.
  pose proof (shared_record_same_key _ Hinj') as Hinj. clear Hinj'.
  cbv zeta. unfold stateDb_ready_handler.
  rewrite sweep_trace. simpl.
  apply list_elem_of_split in Hin as (pre & post & ->).
  rewrite fmap_app, fmap_cons in Hnd.
  apply NoDup_app in Hnd as (_ & Hpre & Hpost%NoDup_cons).
  destruct Hpost as [Hpost _].
  assert (tab_id t ∉ tab_id <$> pre) as Hpre' by (intros ?; eapply Hpre; [done|set_solver]).
  clear Hpre. rewrite foldl_app. simpl.
  destruct (live_pass_frame pre st) as (_ & Hd1 & Hc1 & Hh1 & tr1 & Ht1 & _ & Hw1).
  set (sp := foldl (reconcile_tab supported dbData) st pre) in *.
  destruct (live_pass_frame post (reconcile_tab supported dbData sp t))
    as (_ & Hd2 & Hc2 & Hh2 & tr2 & Ht2 & _ & Hw2).
  set (sf := foldl (reconcile_tab supported dbData)
               (reconcile_tab supported dbData sp t) post) in *.
  specialize (Hc1 _ Hpre'). specialize (Hc2 _ Hpost).
  specialize (Hw1 _ Hpre'). specialize (Hw2 _ Hpost).
  assert (∀ d, dbData !! tab_id t = Some d →
               ∀ ts : list Tab, tab_id t ∉ tab_id <$> ts →
                     ∀ t', t' ∈ ts → dbData !! tab_id t' ≠ Some d) as Hother.
  { intros d Hd ts Hts t' Ht' Hd'. apply Hts.
    rewrite (Hinj _ _ _ Hd Hd'). by apply list_elem_of_fmap_2. }
  destruct (supported (tab_url t)) eqn:Hs; cycle 1.
  { rewrite reconcile_tab_skip in * by done.
    eexists. split; [by rewrite Ht2, Ht1, <- !app_assoc|].
    split; [by rewrite Hc2|].
    by rewrite !writes_of_app, Hw1, Hw2, writes_of_removes. }
  destruct (reconcile_tab_step sp t Hs) as (l & dirty & Hl & E).
  rewrite E in *. simpl in *. clear E.
  eexists. split; [by rewrite Ht2, Ht1, <- !app_assoc|].
  rewrite !writes_of_app, Hw1, Hw2, writes_of_removes, app_nil_r. simpl.
  exists l. split; [by rewrite Hc2, lookup_insert_eq|].
  destruct (dbData !! tab_id t) as [d|] eqn:Hd.
  - destruct Hl as [-> ->].
    assert (heap sp !! d = heap st !! d) as Hsp.
    { apply Hh1; [by eapply Halloc|by eapply Hother]. }
    assert (own_prop (heap sp) d "url" = own_prop (heap st) d "url") as Hurl.
    { unfold own_prop. by rewrite Hsp. }
    rewrite Hurl in *.
    destruct (decide (own_prop (heap st) d "url" = VStr (tab_url t))) as [Heq|Hneq].
    + rewrite bool_decide_eq_false_2 in * by naive_solver. simpl.
      assert (heap sf !! d = heap st !! d) as Hfin.
      { rewrite Hh2, Hsp; [done| |by eapply Hother].
        rewrite Hsp. by eapply Halloc. }
      split; [|done]. unfold own_prop in *. by rewrite Hfin.
    + rewrite bool_decide_eq_true_2 in * by done. simpl.
      rewrite decide_True by done.
      assert (heap sf !! d =
              Some (<["url" := VStr (tab_url t)]> (default ∅ (heap st !! d))))
        as Hfin.
      { rewrite Hh2, lookup_insert_eq, Hsp; [done| |by eapply Hother].
        rewrite lookup_insert_eq. by eexists. }
      split; [|done]. unfold own_prop. rewrite Hfin. simpl.
      by rewrite lookup_insert_eq.
  - destruct Hl as [Hfresh ->]. simpl. rewrite decide_True by done.
    rewrite Hfresh in *. simpl in *.
    assert (heap st !! l = None) as Hfresh0.
    { apply not_elem_of_dom. intros Hin. apply not_elem_of_dom in Hfresh.
      apply Hfresh. by apply Hd1. }
    assert (heap sf !! l = Some {["url" := VStr (tab_url t)]}) as Hfin.
    { rewrite Hh2, lookup_insert_eq, insert_empty; [done| |].
      - rewrite lookup_insert_eq. by eexists.
      - intros t' _ Hd'. destruct (Halloc _ _ Hd') as [o Ho]. congruence. }
    split; [|done]. unfold own_prop. rewrite Hfin. simpl.
    by rewrite lookup_singleton_eq.
Qed.


(** What the first loop does to the cache and to the store. *)
Lemma live_pass_effects tabs st :
  let st' := foldl (reconcile_tab supported dbData) st tabs in
  (∀ k, k ∈ dom (cache st') ↔
        k ∈ dom (cache st) ∨
        ∃ t, t ∈ tabs ∧ tab_id t = k ∧ supported (tab_url t) = true) ∧
  ∃ tr, trace st' = trace st ++ tr ∧
        removed tr = [] ∧
        ∀ k l, StoreSet k l ∈ tr →
               ∃ t, t ∈ tabs ∧ tab_id t = k ∧ supported (tab_url t) = true.
Proof.
  revert st. induction tabs as [|t tabs IH]; intros st; simpl.
  - split; [set_solver|]. exists []. rewrite app_nil_r. set_solver.
  - destruct (IH (reconcile_tab supported dbData st t)) as (IHc & tr & IHt & IHr & IHw).
    destruct (supported (tab_url t)) eqn:Hs.
    + destruct (reconcile_tab_step st t Hs) as (l & dirty & _ & E).
      rewrite E in *. simpl in *. clear E. split.
      * intros k. rewrite IHc, dom_insert_L. split.
        -- intros [[->%elem_of_singleton|?]%elem_of_union|(t' & ? & ? & ?)].
           ++ right. exists t. set_solver.
           ++ by left.
           ++ right. exists t'. set_solver.
        -- intros [?|(t' & [->|?]%elem_of_cons & ? & ?)].
           ++ left. set_solver.
           ++ left. set_solver.
           ++ right. by exists t'.
      * exists ((if dirty then [StoreSet (tab_id t) l] else []) ++ tr).
        split; [by rewrite IHt, <- app_assoc|]. split.
        -- rewrite removed_app, IHr. by destruct dirty.
        -- intros k l' [Hin|Hin]%elem_of_app.
           ++ exists t. destruct dirty; [|set_solver].
              apply list_elem_of_singleton in Hin. simplify_eq. set_solver.
           ++ destruct (IHw k l' Hin) as (t' & ? & ? & ?). exists t'. set_solver.
    + rewrite reconcile_tab_skip in * by done. split.
      * intros k. rewrite IHc. split.
        -- intros [?|(t' & ? & ? & ?)]; [by left|]. right. exists t'. set_solver.
        -- intros [?|(t' & [->|?]%elem_of_cons & ? & ?)]; [by left|congruence|].
           right. by exists t'.
      * exists tr. split; [done|]. split; [done|].
        intros k l' Hin. destruct (IHw k l' Hin) as (t' & ? & ? & ?).
        exists t'. set_solver.
Qed.

(** C2 (amended): the reconciler deletes a key exactly when it is a key
    of the persisted mapping, [+key >= 0] holds and the key is not in
    the cache after the live-tab pass, and then deletes it once.  The
    cache after that pass holds what it held before plus the ids of the
    live tabs with a supported URL.  So a key that parses as a
    non-negative integer and is not in the cache is deleted, a key whose
    numeric coercion is NaN or negative is never deleted, and the only
    keys written are ids of live tabs with a supported URL. *)
Theorem reconcile_sweep (tabs : list Tab) (st : State) :
  let st' := stateDb_ready_handler supported dbData tabs st in
  ∃ tr,
    trace st' = trace st ++ tr ∧
    NoDup (removed tr) ∧
    (∀ k, k ∈ removed tr ↔
          k ∈ dom dbData ∧ key_ge0 k = true ∧ k ∉ dom (cache st')) ∧
    (∀ k, k ∈ dom dbData → spec_parses_as_tab_id k = true →
          k ∉ dom (cache st') → k ∈ removed tr) ∧
    (∀ k, k ∈ dom (cache st') ↔
          k ∈ dom (cache st) ∨
          ∃ t, t ∈ tabs ∧ tab_id t = k ∧ supported (tab_url t) = true) ∧
    (∀ k l, StoreSet k l ∈ tr →
            ∃ t, t ∈ tabs ∧ tab_id t = k ∧ supported (tab_url t) = true).
Proof.
  cbv zeta. unfold stateDb_ready_handler. rewrite sweep_trace. simpl.
  destruct (live_pass_effects tabs st) as (Hc & tr & Ht & Hr & Hw).
  set (s1 := foldl (reconcile_tab supported dbData) st tabs) in *.
  set (ks := filter (λ k, key_ge0 k = true ∧ k ∉ dom (cache s1))
               (map_to_list dbData).*1).
  exists (tr ++ (StoreRemove <$> ks)).
  split; [by rewrite Ht, <- app_assoc|].
  rewrite removed_app, Hr, removed_removes. simpl.
  split; [apply NoDup_filter, NoDup_fst_map_to_list|].
  assert (∀ k, k ∈ ks ↔
               k ∈ dom dbData ∧ key_ge0 k = true ∧ k ∉ dom (cache s1)) as Hks.
  { intros k. unfold ks. rewrite list_elem_of_filter, list_elem_of_fmap. split.
    - intros [[? ?] ([k' l] & -> & Hin)]. simpl in *.
      apply elem_of_map_to_list in Hin.
      split; [|done]. apply elem_of_dom. by eexists.
    - intros ([l Hl]%elem_of_dom & ? & ?). split; [done|]. exists (k, l).
      split; [done|]. by apply elem_of_map_to_list. }
  split; [exact Hks|].
  split.
  { intros k Hk Hspec Hc'. apply Hks. split; [done|].
    split; [by apply spec_tab_id_ge0|done]. }
  split; [done|].
  intros k l [Hin|Hin]%elem_of_app; [by apply (Hw k l)|].
  apply list_elem_of_fmap in Hin as (? & ? & ?). done.
Qed.

End Reconciler.
(** C2 (as stated, refuted).  Key 6 parses as a non-negative integer and
    the live-tab pass inserts nothing (the only live tab is on an
    unsupported page), yet no delete is issued for 6, because tab 6 was
    already in the cache.  Key "1.5" does not parse as a non-negative
    integer, yet it is deleted, because [+"1.5" >= 0]. *)
Lemma sweep_follows_coercion_and_cache :
  let st' := stateDb_ready_handler http_only db_drift tabs_drift st_drift in
  Forall (λ t, http_only (tab_url t) = false) tabs_drift ∧
  (spec_parses_as_tab_id (KNum 6) = true ∧
   is_Some (db_drift !! KNum 6) ∧
   StoreRemove (KNum 6) ∉ trace st') ∧
  (spec_parses_as_tab_id (KStr "1.5") = false ∧
   is_Some (db_drift !! KStr "1.5") ∧
   StoreRemove (KStr "1.5") ∈ trace st').
Proof.
  assert (trace (stateDb_ready_handler http_only db_drift tabs_drift st_drift)
          = [StoreSet (KNum 6) 1%positive; StoreRemove (KStr "1.5")]) as E
    by (vm_compute; reflexivity).
  cbv zeta. rewrite E. clear E. split; [by repeat constructor|]. split.
  - split; [reflexivity|]. split; [by eexists|]. set_solver.
  - split; [reflexivity|]. split; [by eexists|]. set_solver.
Qed.

(** *** The properties on the sample inputs *)

(** The example of the specification: the cache holds only tab 5, with
    the live URL; the record of 5 is written, key 6 is deleted and
    "cfg" is not touched. *)
Example reconcile_example :
  let st' := stateDb_ready_handler http_only db_example tabs_example st_example in
  dom (cache st') = {[KNum 5]} ∧
  get st' (KNum 5) ["url"] = Ok (VStr "http://new") ∧
  trace st' = [StoreSet (KNum 5) 1%positive; StoreRemove (KNum 6)].
Proof. vm_compute. done. Qed.

Lemma reconcile_live_tabs_witness :
  snapshot_wf db_example tabs_example (heap st_example) ∧
  ∃ tr,
    trace (stateDb_ready_handler http_only db_example tabs_example st_example)
    = trace st_example ++ tr ∧
    writes_of (KNum 5) tr = [1%positive].
Proof.
  assert (snapshot_wf db_example tabs_example (heap st_example)) as Hwf.
  { apply (bool_decide_unpack _). vm_compute. exact I. }
  split; [exact Hwf|].
  destruct (reconcile_live_tabs http_only db_example tabs_example st_example
              (mkTab (KNum 5) "http://new") Hwf) as (tr & Htr & H).
  { apply list_elem_of_singleton. reflexivity. }
  exists tr. split; [exact Htr|].
  change (http_only (tab_url (mkTab (KNum 5) "http://new"))) with true in H.
  destruct H as (l & _ & _ & H).
  change (db_example !! tab_id (mkTab (KNum 5) "http://new"))
    with (Some 1%positive) in H.
  destruct H as (-> & H).
  destruct (decide _) as [E|_] in H; [|exact (proj2 H)].
  vm_compute in E. discriminate.
Defined.

Lemma reconcile_sweep_witness :
  ∃ tr,
    trace (stateDb_ready_handler http_only db_example tabs_example st_example)
    = trace st_example ++ tr ∧
    KNum 6 ∈ removed tr ∧ KStr "cfg" ∉ removed tr.
Proof.
  destruct (reconcile_sweep http_only db_example tabs_example st_example)
    as (tr & Htr & _ & Hrm & _ & _).
  exists tr. split; [exact Htr|]. split.
  - apply Hrm. split; [|split]; [| reflexivity |].
    + apply elem_of_dom. by eexists.
    + apply not_elem_of_dom. reflexivity.
  - intros (_ & Hge & _)%Hrm. vm_compute in Hge. discriminate.
Defined.

Lemma subframe_navigation_ignored_witness :
  nav_frameId (mkNavEvent tab7 3 "http://b") ≠ 0 ∧
  onUrlChange_handler http_only all_return (mkNavEvent tab7 3 "http://b")
    st_listening = st_listening.
Proof.
  split; [discriminate|].
  apply (subframe_navigation_ignored http_only all_return). discriminate.
Defined.

Lemma unsupported_navigation_recorded_witness :
  let ev := mkNavEvent (KNum 6) 0 "chrome://newtab" in
  nav_frameId ev = 0 ∧
  http_only (nav_url ev) = false ∧
  ∃ l,
    cache st_navigated !! KNum 6 = Some l ∧
    own_prop (heap st_navigated) l "url" = VStr "chrome://newtab" ∧
    trace st_navigated = trace init ++ [StoreSet (KNum 6) l] ∧
    calls (trace st_navigated) = calls (trace init).
Proof.
  split; [reflexivity|]. split; [reflexivity|].
  destruct (unsupported_navigation_recorded http_only all_return
              (mkNavEvent (KNum 6) 0 "chrome://newtab") init
              eq_refl eq_refl)
    as (l & Hc & _ & _ & Hu & Ht & Hcalls & _).
  exists l. repeat split; assumption.
Defined.

Lemma supported_navigation_notifies_witness :
  let ev := mkNavEvent tab7 0 "http://b" in
  let st' := onUrlChange_handler http_only second_throws ev st_listening in
  nav_frameId ev = 0 ∧
  http_only (nav_url ev) = true ∧
  NoDup (listeners st_listening) ∧
  ∃ l old tr,
    let arg := mkUrlChange tab7 "http://b" old in
    get st_listening tab7 ["url"] = Ok old ∧
    trace st' = trace st_listening ++ StoreSet tab7 l :: tr ∧
    calls tr = [(0%nat, arg); (1%nat, arg); (2%nat, arg)] ∧
    ConsoleError (VStr "boom") ∈ tr ∧
    own_prop (heap st') l "url" = VStr "http://b".
Proof.
  assert (NoDup (listeners st_listening)) as Hnd.
  { apply (bool_decide_unpack _). vm_compute. exact I. }
  split; [reflexivity|]. split; [reflexivity|]. split; [exact Hnd|].
  destruct (supported_navigation_notifies http_only second_throws
              (mkNavEvent tab7 0 "http://b") st_listening
              eq_refl eq_refl Hnd)
    as (l & old & tr & Hold & Ht & _ & Hcalls & _ & Herr & _ & Hurl & _).
  exists l, old, tr. split; [exact Hold|]. split; [exact Ht|].
  split; [exact Hcalls|]. split; [|exact Hurl].
  apply (Herr 1%nat).
  - apply (bool_decide_unpack _). vm_compute. exact I.
  - reflexivity.
Defined.

(** The trace of that navigation: the store write, then the three calls
    in registration order, the error of the second listener logged
    between the second and the third call. *)
Example navigation_trace_example :
  let arg := mkUrlChange tab7 "http://b" (VStr "http://a") in
  trace (onUrlChange_handler http_only second_throws
           (mkNavEvent tab7 0 "http://b") st_listening)
  = trace st_listening ++
    [StoreSet tab7 1%positive; Call 0%nat arg; Call 1%nat arg;
     ConsoleError (VStr "boom"); Call 2%nat arg].
Proof. vm_compute. reflexivity. Qed.


Lemma set_undefined_deletes_witness :
  let st' := state_of (set tab7 ["url"] VUndefined st_url_only) in
  set tab7 ["url"] VUndefined st_url_only = Normal st' ∧
  own_prop (heap st') 1%positive "url" = VUndefined ∧
  cache st' = cache st_url_only.
Proof.
  destruct (set_undefined_deletes tab7 ["url"] st_url_only)
    as (Hc & _ & _ & _ & Hdel).
  destruct (Hdel 1%positive) as (Hret & _ & Hgone).
  - eexists. reflexivity.
  - reflexivity.
  - split; [exact Hret|]. split; [exact Hgone|exact Hc].
Defined.

(** ** Further properties *)

(** *** Further properties: set and get *)

Lemma path_snoc (p : list string) (k : string) :
  removelast (p ++ [k]) = p ∧ default "undefined" (last (p ++ [k])) = k.
Proof. split; [apply removelast_last|]. by rewrite last_snoc. Qed.

Lemma store_prop_other (h : heap_t) l k x l' :
  l' ≠ l → store_prop h l k x !! l' = h !! l'.
Proof. intros Hne. unfold store_prop. by rewrite lookup_insert_ne. Qed.

Lemma set_walk_fresh (h : heap_t) l args k v :
  h !! l = Some ∅ →
  ∃ h' l',
    set_walk false h (VRef l) args = (h', Ok (VRef l')) ∧
    get_walk (store_prop h' l' k v) (VRef l) (args ++ [k]) = Ok v ∧
    ∀ x, is_Some (h !! x) → x ≠ l → store_prop h' l' k v !! x = h !! x.
Proof.
  revert h l. induction args as [|a rest IH]; intros h l Hl.
  - exists h, l. split; [done|]. split.
    + simpl. by rewrite own_prop_store_eq.
    + intros x _ Hx. by apply store_prop_other.
  - simpl. rewrite (own_prop_lookup h l ∅ a Hl), lookup_empty. simpl.
    set (l2 := alloc h).
    assert (l2 ≠ l) as Hne by (apply (alloc_ne h l ∅ Hl)).
    set (h2 := store_prop (<[l2:=∅]> h) l a (VRef l2)).
    assert (h2 !! l2 = Some ∅) as Hl2.
    { unfold h2. rewrite store_prop_other by done. apply lookup_insert_eq. }
    assert (h2 !! l = Some {[a := VRef l2]}) as Hl'.
    { unfold h2, store_prop. rewrite lookup_insert_eq.
      rewrite lookup_insert_ne, Hl by done. simpl. by rewrite insert_empty. }
    destruct (IH h2 l2 Hl2) as (h' & l' & E & Hget & Hframe).
    exists h', l'. split; [done|]. split.
    + rewrite (own_prop_lookup _ l {[a := VRef l2]} a), lookup_singleton_eq.
      * simpl. exact Hget.
      * rewrite Hframe; [done| by eexists | done].
    + intros x Hx Hxl.
      assert (x ≠ l2) as Hx2.
      { intros ->. pose proof (alloc_fresh h) as Hf. fold l2 in Hf.
        rewrite Hf in Hx. by destruct Hx. }
      rewrite Hframe; [| |done].
      * unfold h2. rewrite store_prop_other by done. by rewrite lookup_insert_ne.
      * unfold h2. rewrite store_prop_other by done.
        by rewrite lookup_insert_ne.
Qed.

(** X1: on a tab without a record, [set] with a defined value and any
    non-empty path whose keys name no inherited member returns, and
    [get] with the same path then gives that value back.  The record is
    a new object, handed to the store once; the other tabs and every
    object that existed before are untouched. *)
Theorem set_get_roundtrip_new_tab (T : key) (p : list string) (k : string)
    (v : value) (st : State) :
  cache st !! T = None →
  v ≠ VUndefined →
  own_keys (p ++ [k]) = true →
  ∃ st' l,
    set T (p ++ [k]) v st = Normal st' ∧
    get st' T (p ++ [k]) = Ok v ∧
    cache st' !! T = Some l ∧
    heap st !! l = None ∧
    trace st' = trace st ++ [StoreSet T l] ∧
    (∀ T', T' ≠ T → cache st' !! T' = cache st !! T') ∧
    (∀ x, is_Some (heap st !! x) → heap st' !! x = heap st !! x).
Proof.
  intros HT Hv _. unfold set. destruct (path_snoc p k) as [-> ->].
  rewrite HT, (bool_decide_eq_false_2 _ Hv). simpl.
  set (l := alloc (heap st)).
  pose proof (alloc_fresh (heap st)) as Hfresh. fold l in Hfresh.
  destruct (set_walk_fresh (<[l:=∅]> (heap st)) l p k v)
    as (h' & l' & -> & Hget & Hframe); [apply lookup_insert_eq|].
  simpl. eexists _, l. split; [done|]. simpl.
  split; [unfold get, cache_get; simpl; by rewrite lookup_insert_eq|].
  split; [apply lookup_insert_eq|]. split; [done|]. split; [done|].
  split; [intros T' HT'; by rewrite lookup_insert_ne|].
  intros x Hx.
  assert (x ≠ l) as Hxl by (intros ->; rewrite Hfresh in Hx; by destruct Hx).
  rewrite Hframe; [by rewrite lookup_insert_ne| |done].
  by rewrite lookup_insert_ne.
Qed.

(** *** Further properties: a field of the record itself *)

(** X2: [set(T, k, v)] with a defined value, on a field of the record
    itself whose key names no inherited member, never throws, whether or
    not the tab was tracked; [get(T, k)] then gives [v], every other
    such field reads as before and an existing record stays the same
    object. *)
Theorem set_field_get (T : key) (k : string) (v : value) (st : State) :
  v ≠ VUndefined →
  inherited k = false →
  ∃ st',
    set T [k] v st = Normal st' ∧
    get st' T [k] = Ok v ∧
    (∀ k', k' ≠ k → inherited k' = false →
           get st' T [k'] = get st T [k']) ∧
    (∀ l, cache st !! T = Some l → cache st' !! T = Some l) ∧
    (∀ T', T' ≠ T → cache st' !! T' = cache st !! T').
Proof.
  intros Hv _. unfold set. rewrite (bool_decide_eq_false_2 _ Hv). simpl.
  destruct (cache st !! T) as [l|] eqn:HT; simpl.
  - eexists. split; [done|]. unfold get, cache_get. simpl. rewrite HT. simpl.
    split; [by rewrite own_prop_store_eq|].
    split; [|done].
    intros k' Hk _. unfold own_prop, store_prop. rewrite lookup_insert_eq. simpl.
    rewrite lookup_insert_ne by done. by destruct (heap st !! l).
  - eexists. split; [done|]. unfold get, cache_get. simpl.
    rewrite HT, lookup_insert_eq. simpl.
    split; [by rewrite own_prop_store_eq|].
    split; [|split; [done|intros T' HT'; by rewrite lookup_insert_ne]].
    intros k' Hk _. unfold own_prop, store_prop. rewrite !lookup_insert_eq. simpl.
    by rewrite lookup_insert_ne, lookup_empty.
Qed.

(** *** Further properties: delete, then read *)





(** *** Further properties: a call that throws *)

Lemma own_prop_alloc_empty (h : heap_t) l x k :
  h !! l = None → own_prop (<[l:=∅]> h) x k = own_prop h x k.
Proof.
  intros Hl. unfold own_prop. destruct (decide (l = x)) as [->|Hne].
  - by rewrite lookup_insert_eq, Hl.
  - by rewrite lookup_insert_ne.
Qed.

Lemma get_walk_alloc_empty (h : heap_t) l v q :
  h !! l = None → get_walk (<[l:=∅]> h) v q = get_walk h v q.
Proof.
  intros Hl. revert v. induction q as [|k q IH]; intros v; simpl; [done|].
  destruct (truthy v); [|done].
  assert (get_prop (<[l:=∅]> h) v k = get_prop h v k) as ->.
  { destruct v; simpl; try done. by rewrite own_prop_alloc_empty. }
  destruct (get_prop h v k); simpl; [apply IH|done].
Qed.

Lemma set_walk_after_create (h : heap_t) l k rest :
  ∃ h' l',
    set_walk false (store_prop (<[alloc h:=∅]> h) l k (VRef (alloc h)))
      (VRef (alloc h)) rest = (h', Ok (VRef l')).
Proof.
  apply set_walk_passable. intros p x _ Hx.
  destruct (fresh_object_clean h l k p) as [E|E]; rewrite E in Hx; by simplify_eq.
Qed.

Lemma set_walk_error h obj args h' :
  set_walk false h obj args = (h', TypeError) → h' = <[alloc h:=∅]> h.
Proof.
  revert obj. induction args as [|k rest IH]; intros obj; simpl; [done|].
  destruct (truthy obj) eqn:Hobj; [|done].
  destruct (get_prop_truthy h obj k Hobj) as [v ->].
  destruct (truthy v); [apply IH|].
  destruct obj as [| | | | |l]; simpl; try by intros [= <-].
  destruct (set_walk_after_create h l k rest) as (h2 & l2 & ->). done.
Qed.

Lemma set_walk_primitive h obj args h' y :
  set_walk false h obj args = (h', Ok y) → (∀ l, y ≠ VRef l) → h' = h.
Proof.
  revert obj. induction args as [|k rest IH]; intros obj; simpl.
  - by intros [= <- _] _.
  - destruct (truthy obj) eqn:Hobj; [|by intros [= <- _] _].
    destruct (get_prop_truthy h obj k Hobj) as [v ->].
    destruct (truthy v); [apply IH|].
    destruct obj as [| | | | |l]; simpl; try done.
    destruct (set_walk_after_create h l k rest) as (h2 & l2 & ->).
    intros [= <- <-] Hy. by destruct (Hy l2).
Qed.

(** X4: a call of [set] that throws, on a path whose keys name no
    inherited member, leaves nothing behind: it throws only on a tab
    that has a record, and afterwards the cache, the listeners and the
    trace are the same and every [get] and [getStyleIds] gives what it
    gave before. *)
Theorem set_throw_unchanged (T : key) (path : list string) (v : value)
    (st st' : State) :
  own_keys path = true →
  set T path v st = Throw st' →
  is_Some (cache st !! T) ∧
  cache st' = cache st ∧
  listeners st' = listeners st ∧
  trace st' = trace st ∧
  (∀ T' q, get st' T' q = get st T' q) ∧
  (∀ T', getStyleIds st' T' = getStyleIds st T').
Proof.
  intros _ E.
  assert (is_Some (cache st !! T) ∧
          (st' = st ∨ st' = with_heap (<[alloc (heap st):=∅]> (heap st)) st))
    as [HT [->| ->]].
  { unfold set in E. destruct (cache st !! T) as [l0|] eqn:HT.
    - split; [by eexists|].
      destruct (bool_decide (v = VUndefined)) eqn:Hdel.
      + destruct (set_walk_del (heap st) (VRef l0) (removelast path))
          as (y & Ew & _).
        rewrite Ew in E. simpl in E.
        destruct (if truthy y then _ else _); [done|].
        injection E as <-. left. apply with_heap_id.
      + destruct (set_walk false _ _ _) as [h [obj|]] eqn:Ew.
        * simpl in E. destruct (set_prop h obj _ v) eqn:Es; [done|].
          injection E as <-. left.
          rewrite (set_walk_primitive _ _ _ _ _ Ew); [apply with_heap_id|].
          intros l ->. done.
        * injection E as <-. right. by rewrite (set_walk_error _ _ _ _ Ew).
    - destruct (bool_decide (v = VUndefined)); [done|]. exfalso. simpl in E.
      destruct (set_walk_passable (<[alloc (heap st):=∅]> (heap st))
                  (alloc (heap st)) (removelast path)) as (h' & l' & Ew).
      { intros p x _ Hx.
        destruct (empty_object_clean (<[alloc (heap st):=∅]> (heap st))
                    (alloc (heap st)) p) as [Ec|Ec];
          [apply lookup_insert_eq| |]; rewrite Ec in Hx; by simplify_eq. }
      rewrite Ew in E. done. }
  - done.
  - pose proof (alloc_fresh (heap st)) as Hf.
    repeat split; try done.
    + intros T' q. unfold get, cache_get. simpl. by apply get_walk_alloc_empty.
    + intros T'. unfold getStyleIds. simpl.
      destruct (cache st !! T'); [|done]. by rewrite own_prop_alloc_empty.
Qed.

(** *** Further properties: what set leaves alone *)

(** X5: in every outcome [set] changes the cache at [tabId] only, never
    replaces a record that exists, and with [undefined] as value leaves
    the cache as it was; it never registers or calls a listener, never
    removes a key from the store and never writes under another key. *)
Theorem set_cache_frame (T : key) (path : list string) (v : value)
    (st : State) :
  let st' := state_of (set T path v st) in
  listeners st' = listeners st ∧
  (∀ T', T' ≠ T → cache st' !! T' = cache st !! T') ∧
  (∀ l, cache st !! T = Some l → cache st' !! T = Some l) ∧
  (v = VUndefined → cache st' = cache st) ∧
  removed (trace st') = removed (trace st) ∧
  calls (trace st') = calls (trace st) ∧
  (∀ T', T' ≠ T → writes_of T' (trace st') = writes_of T' (trace st)).
Proof.
  cbv zeta.
  assert (∀ T' tr l, T' ≠ T →
            writes_of T' (tr ++ [StoreSet T l]) = writes_of T' tr) as Hw.
  { intros T' tr l HT'. rewrite writes_of_app. simpl.
    rewrite decide_False by done. apply app_nil_r. }
  assert (∀ tr l, removed (tr ++ [StoreSet T l]) = removed tr) as Hr.
  { intros tr l. rewrite removed_app. apply app_nil_r. }
  assert (∀ tr l, calls (tr ++ [StoreSet T l]) = calls tr) as Hc.
  { intros tr l. rewrite calls_app. apply app_nil_r. }
  unfold set.
  destruct (cache st !! T) as [l0|] eqn:HT.
  - destruct (set_walk _ _ _ _) as [h [obj|]];
      [destruct (if negb _ then _ else _)|];
      cbn [state_of emit with_heap with_cache cache listeners trace heap];
      rewrite ?Hr, ?Hc; repeat split; try done;
      try (intros; by apply Hw); intros; congruence.
  - destruct (bool_decide (v = VUndefined)) eqn:Hdel;
      cbn [state_of emit with_heap with_cache cache listeners trace heap];
      [done|].
    apply bool_decide_eq_false in Hdel.
    destruct (set_walk _ _ _ _) as [h [obj|]];
      [destruct (set_prop _ _ _ _)|];
      cbn [state_of emit with_heap with_cache cache listeners trace heap negb];
      rewrite ?Hr, ?Hc; repeat split; try done;
      try (intros T' HT'; by rewrite lookup_insert_ne);
      try (intros; by apply Hw).
Qed.

(** *** Further properties: styleIds *)

Lemma set_walk_styleIds (h : heap_t) obj0 f v :
  f ≠ "styleIds" →
  passable (own_prop h obj0 "styleIds") = true →
  ∃ h' l,
    set_walk false h (VRef obj0) ["styleIds"] = (h', Ok (VRef l)) ∧
    own_prop (store_prop h' l f v) obj0 "styleIds" = VRef l ∧
    own_prop (store_prop h' l f v) l f = v.
Proof.
  intros Hf Hp. simpl.
  destruct (truthy (own_prop h obj0 "styleIds")) eqn:Ht.
  - destruct (passable_truthy _ Hp Ht) as [l Hl]. rewrite Hl.
    exists h, l. split; [done|]. split; [|apply own_prop_store_eq].
    unfold own_prop, store_prop in *.
    destruct (decide (l = obj0)) as [->|Hne].
    + rewrite lookup_insert_eq. simpl. rewrite lookup_insert_ne by done.
      by destruct (h !! obj0).
    + by rewrite lookup_insert_ne.
  - set (l2 := alloc h). eexists _, l2. split; [done|].
    split; [|apply own_prop_store_eq].
    unfold own_prop, store_prop.
    destruct (decide (l2 = obj0)) as [<-|Hne].
    + rewrite !lookup_insert_eq. simpl. rewrite lookup_insert_ne by done.
      by rewrite lookup_insert_eq.
    + rewrite (lookup_insert_ne _ l2 obj0) by done.
      rewrite lookup_insert_eq. simpl. by rewrite lookup_insert_eq.
Qed.

Lemma get_walk_two (h : heap_t) a k1 k2 l :
  own_prop h a k1 = VRef l →
  get_walk h (VRef a) [k1; k2] = Ok (own_prop h l k2).
Proof. intros E. simpl. by rewrite E. Qed.

Lemma getStyleIds_ref st T a l :
  cache st !! T = Some a → own_prop (heap st) a "styleIds" = VRef l →
  getStyleIds st T = VRef l.
Proof. intros HT E. unfold getStyleIds. by rewrite HT, E. Qed.

(** X6: when the [styleIds] field of the tab is missing, falsy or an
    object, [set(T, 'styleIds', f, v)] with a defined value, for a frame
    key [f] that names no inherited member, returns; [getStyleIds(T)] is
    then an object, not [false], and [get(T, 'styleIds', f)] gives
    [v]. *)
Theorem set_styleIds_getStyleIds (T : key) (f : string) (v : value)
    (st : State) :
  v ≠ VUndefined →
  f ≠ "styleIds" →
  inherited f = false →
  (∀ x, get st T ["styleIds"] = Ok x → passable x = true) →
  ∃ st' l,
    set T ["styleIds"; f] v st = Normal st' ∧
    getStyleIds st' T = VRef l ∧
    get st' T ["styleIds"; f] = Ok v.
Proof.
  intros Hv Hf _ Hp. unfold set. rewrite (bool_decide_eq_false_2 _ Hv).
  cbn [removelast last default negb]. unfold id.
  destruct (cache st !! T) as [obj0|] eqn:HT.
  - destruct (set_walk_styleIds (heap st) obj0 f v Hf) as (h' & l & -> & Hs & Hv').
    { apply Hp. unfold get, cache_get. by rewrite HT. }
    cbn [set_prop].
    eexists _, l. split; [done|]. split.
    + by apply (getStyleIds_ref _ T obj0 l).
    + unfold get, cache_get.
      cbn [emit with_heap with_cache cache heap]. rewrite HT.
      by rewrite (get_walk_two _ obj0 "styleIds" f l Hs), Hv'.
  - set (l0 := alloc (heap st)).
    destruct (set_walk_styleIds (<[l0:=∅]> (heap st)) l0 f v Hf)
      as (h' & l & E & Hs & Hv').
    { unfold own_prop. by rewrite lookup_insert_eq. }
    cbn [with_heap with_cache cache heap]. rewrite E. cbn [set_prop].
    eexists _, l. split; [done|]. split.
    + apply (getStyleIds_ref _ T l0 l); [apply lookup_insert_eq|done].
    + unfold get, cache_get.
      cbn [emit with_heap with_cache cache heap]. rewrite lookup_insert_eq.
      by rewrite (get_walk_two _ l0 "styleIds" f l Hs), Hv'.
Qed.

Lemma set_cache (T : key) (path : list string) (v : value) (st : State) :
  cache (state_of (set T path v st)) =
  match cache st !! T with
  | Some _ => cache st
  | None => if bool_decide (v = VUndefined) then cache st
            else <[T := alloc (heap st)]> (cache st)
  end.
Proof.
  unfold set. destruct (cache st !! T) as [l0|].
  - destruct (set_walk _ _ _ _) as [h [obj|]]; [|done].
    by destruct (if negb _ then _ else _).
  - destruct (bool_decide (v = VUndefined)); [done|].
    cbn [with_heap with_cache cache heap negb].
    destruct (set_walk _ _ _ _) as [h [obj|]]; [|done].
    by destruct (set_prop _ _ _ _).
Qed.

(** *** Further properties: registration *)

Lemma filter_ne_id (f : fn) (fs : list fn) :
  f ∉ fs → filter (λ g, g ≠ f) fs = fs.
Proof.
  induction fs as [|g fs IH]; [done|]. intros Hf.
  rewrite filter_cons_True by set_solver. f_equal. apply IH. set_solver.
Qed.

Lemma filter_ne_snoc (f : fn) (fs : list fn) :
  filter (λ g, g ≠ f) (fs ++ [f]) = filter (λ g, g ≠ f) fs.
Proof.
  rewrite filter_app, filter_cons_False, filter_nil by naive_solver.
  apply app_nil_r.
Qed.

(** X7: [onOff] touches the listeners only and is idempotent.
    Registering adds the callback unless it is there already, in which
    case nothing changes, its place included; unregistering removes it;
    the other callbacks are kept as they were.  Unregistering a callback
    that was new undoes its registration, and registering one again
    after unregistering it moves it to the end. *)
Theorem onOff_set_semantics (f : fn) (state : bool) (st : State) :
  let st' := onOff f state st in
  cache st' = cache st ∧ heap st' = heap st ∧ trace st' = trace st ∧
  onOff f state st' = st' ∧
  (∀ g, g ∈ listeners st' ↔
        if state then g = f ∨ g ∈ listeners st
        else g ∈ listeners st ∧ g ≠ f) ∧
  (∀ g, g ≠ f →
        filter (λ x, x = g) (listeners st') = filter (λ x, x = g) (listeners st)) ∧
  (f ∈ listeners st → onOff f true st = st) ∧
  (f ∉ listeners st → onOff f false (onOff f true st) = st) ∧
  listeners (onOff f true (onOff f false st))
  = filter (λ g, g ≠ f) (listeners st) ++ [f].
Proof.
  cbv zeta.
  assert (∀ s, f ∈ listeners s → onOff f true s = s) as Hkeep.
  { intros s Hin. unfold onOff. by rewrite bool_decide_eq_true_2. }
  assert (∀ s, f ∉ listeners s →
               onOff f true s = with_listeners (listeners s ++ [f]) s) as Hadd.
  { intros s Hin. unfold onOff. by rewrite bool_decide_eq_false_2. }
  assert (∀ s, f ∉ listeners (onOff f false s)) as Hgone.
  { intros s [? _]%list_elem_of_filter. done. }
  split; [unfold onOff; destruct state; [destruct (bool_decide _)|]; done|].
  split; [unfold onOff; destruct state; [destruct (bool_decide _)|]; done|].
  split; [unfold onOff; destruct state; [destruct (bool_decide _)|]; done|].
  split.
  { destruct state.
    - apply Hkeep. destruct (decide (f ∈ listeners st)) as [Hin|Hin].
      + by rewrite Hkeep.
      + rewrite Hadd by done. cbn [with_listeners listeners]. set_solver.
    - unfold onOff. destruct st as [c ls h tr]. unfold with_listeners.
      cbn [cache listeners heap trace]. f_equal.
      apply filter_ne_id. intros [? _]%list_elem_of_filter. done. }
  split.
  { intros g. destruct state.
    - destruct (decide (f ∈ listeners st)) as [Hin|Hin].
      + rewrite Hkeep by done. set_solver.
      + rewrite Hadd by done. cbn [with_listeners listeners].
        rewrite elem_of_app, list_elem_of_singleton. tauto.
    - unfold onOff. cbn [with_listeners listeners].
      rewrite list_elem_of_filter. tauto. }
  split.
  { intros g Hg. destruct state.
    - destruct (decide (f ∈ listeners st)) as [Hin|Hin].
      + by rewrite Hkeep.
      + rewrite Hadd by done. cbn [with_listeners listeners].
        rewrite filter_app, filter_cons_False, filter_nil by done.
        apply app_nil_r.
    - unfold onOff. cbn [with_listeners listeners].
      rewrite list_filter_filter. apply list_filter_iff.
      intros x. split; [tauto|]. intros ->. done. }
  split; [apply Hkeep|].
  split.
  { intros Hin. rewrite Hadd by done. unfold onOff.
    destruct st as [c ls h tr]. unfold with_listeners.
    cbn [cache listeners heap trace] in *. f_equal.
    by rewrite filter_ne_snoc, filter_ne_id. }
  by rewrite Hadd.
Qed.

(** *** Further properties: navigation *)

Section NavigationMore.
Variable supported : string → bool.
Variable invoke : fn → UrlChange → option value.

Lemma subframe_skip ev st :
  nav_frameId ev ≠ 0 → onUrlChange_handler supported invoke ev st = st.
Proof.
  intros Hf. unfold onUrlChange_handler. simpl.
  by destruct (Z.eqb_spec (nav_frameId ev) 0).
Qed.

(** The cache and heap after a top-frame event, whatever [supported]
    says and whoever listens. *)
Lemma top_frame_state ev st :
  nav_frameId ev = 0 →
  ∃ l old tr,
    get st (nav_tabId ev) ["url"] = Ok old ∧
    match cache st !! nav_tabId ev with
    | Some l0 => l = l0
    | None => heap st !! l = None
    end ∧
    onUrlChange_handler supported invoke ev st =
    mkState (<[nav_tabId ev := l]> (cache st)) (listeners st)
      (<[l := <["url" := VStr (nav_url ev)]> (default ∅ (heap st !! l))]>
         (heap st))
      (trace st ++ StoreSet (nav_tabId ev) l :: tr) ∧
    calls tr =
      if supported (nav_url ev)
      then (λ f, (f, mkUrlChange (nav_tabId ev) (nav_url ev) old))
             <$> listeners st
      else [].
Proof.
  intros Hf. destruct (top_frame_update supported invoke ev st Hf)
    as (l & old & Hold & Hl & E).
  simpl in E. rewrite E. clear E.
  destruct (supported (nav_url ev)); simpl.
  - rewrite notify_all_trace. simpl.
    exists l, old, (listeners st ≫=
      delivered invoke (mkUrlChange (nav_tabId ev) (nav_url ev) old)).
    split; [done|]. split; [done|]. split; [by rewrite <- app_assoc|].
    apply calls_delivered.
  - by exists l, old, [].
Qed.

(** X8: whatever the event, the handler calls registered listeners
    only; a callback that was unregistered with [onOff(fn, false)] is
    not called. *)
Theorem only_registered_listeners_called (f : fn) (ev : NavEvent) (st : State) :
  (∃ tr, trace (onUrlChange_handler supported invoke ev st) = trace st ++ tr ∧
         ∀ g arg, (g, arg) ∈ calls tr → g ∈ listeners st) ∧
  (∃ tr, trace (onUrlChange_handler supported invoke ev (onOff f false st))
         = trace st ++ tr ∧
         ∀ arg, (f, arg) ∉ calls tr).
Proof.
  assert (∀ s, ∃ tr,
            trace (onUrlChange_handler supported invoke ev s) = trace s ++ tr ∧
            ∀ g arg, (g, arg) ∈ calls tr → g ∈ listeners s) as Hgen.
  { intros s. destruct (decide (nav_frameId ev = 0)) as [Hf|Hf].
    - destruct (top_frame_state ev s Hf) as (l & old & tr & _ & _ & -> & Hc).
      eexists. split; [done|]. intros g arg.
      change (StoreSet (nav_tabId ev) l :: tr)
        with ([StoreSet (nav_tabId ev) l] ++ tr).
      rewrite calls_app, Hc. simpl.
      destruct (supported (nav_url ev)); [|by intros ?%elem_of_nil].
      intros (g' & [= -> _] & Hin)%list_elem_of_fmap. done.
    - rewrite subframe_skip by done. exists []. rewrite app_nil_r.
      split; [done|]. by intros g arg ?%elem_of_nil. }
  split; [apply Hgen|].
  destruct (Hgen (onOff f false st)) as (tr & Ht & Hc).
  exists tr. split; [exact Ht|].
  intros arg Hin. apply Hc in Hin. unfold onOff in Hin. simpl in Hin.
  apply list_elem_of_filter in Hin as [Hne _]. done.
Qed.

Lemma called_once_fst (arg : UrlChange) (f : fn) (fs : list fn) :
  NoDup fs → f ∈ fs →
  filter (λ c, c.1 = f) ((λ g, (g, arg)) <$> fs) = [(f, arg)].
Proof.
  induction 1 as [|g fs Hg Hnd IH]; intros Hin; [by apply elem_of_nil in Hin|].
  rewrite fmap_cons, filter_cons. simpl. apply elem_of_cons in Hin.
  destruct (decide (g = f)) as [->|Hne].
  - f_equal. apply elem_of_nil_inv.
    intros c [Hc (g & -> & Hin')%list_elem_of_fmap]%list_elem_of_filter.
    simpl in Hc. by subst.
  - destruct Hin as [->|Hin]; [done|]. by apply IH.
Qed.

(** X9: after [onOff(fn)], a top-frame navigation to a supported URL
    calls [fn] exactly once, with [{tabId, url, oldUrl}]; a callback that
    was new is called after all the others. *)
Theorem registered_listener_called_once (f : fn) (ev : NavEvent) (st : State) :
  nav_frameId ev = 0 →
  supported (nav_url ev) = true →
  NoDup (listeners st) →
  let st' := onUrlChange_handler supported invoke ev (onOff f true st) in
  ∃ l old tr,
    let arg := mkUrlChange (nav_tabId ev) (nav_url ev) old in
    get st (nav_tabId ev) ["url"] = Ok old ∧
    trace st' = trace st ++ StoreSet (nav_tabId ev) l :: tr ∧
    filter (λ c, c.1 = f) (calls tr) = [(f, arg)] ∧
    (f ∉ listeners st →
     calls tr = ((λ g, (g, arg)) <$> listeners st) ++ [(f, arg)]).
Proof.
  intros Hf Hs Hnd.
  pose proof (onOff_NoDup f true st Hnd) as Hnd'.
  pose proof (proj1 (onOff_registered f st)) as Hreg.
  assert (trace (onOff f true st) = trace st ∧
          get (onOff f true st) (nav_tabId ev) ["url"]
          = get st (nav_tabId ev) ["url"]) as [Htr Hget].
  { unfold onOff. by destruct (bool_decide _). }
  assert (f ∉ listeners st →
          listeners (onOff f true st) = listeners st ++ [f]) as Hnew.
  { intros Hin. unfold onOff. by rewrite bool_decide_eq_false_2. }
  destruct (top_frame_state ev (onOff f true st) Hf)
    as (l & old & tr & Hold & _ & E & Hc).
  cbv zeta. rewrite E. clear E. rewrite Hs in Hc. rewrite Hget in Hold.
  exists l, old, tr. split; [done|].
  cbn [trace]. rewrite Htr. split; [done|].
  rewrite Hc. split.
  - by apply called_once_fst.
  - intros Hin. by rewrite (Hnew Hin), fmap_app.
Qed.

(** X10: after a top-frame navigation [get(tabId, 'url')] is the new
    URL, whether or not the URL is supported.  The other fields of the
    record (those whose key names no inherited member), [styleIds]
    included, the other tabs and the other objects are left as they
    were. *)
Theorem navigation_updates_url (ev : NavEvent) (st : State) :
  nav_frameId ev = 0 →
  let T := nav_tabId ev in
  let st' := onUrlChange_handler supported invoke ev st in
  get st' T ["url"] = Ok (VStr (nav_url ev)) ∧
  (∀ k, k ≠ "url" → inherited k = false → get st' T [k] = get st T [k]) ∧
  getStyleIds st' T = getStyleIds st T ∧
  (∀ T', T' ≠ T → cache st' !! T' = cache st !! T') ∧
  (∀ x l, cache st' !! T = Some l → is_Some (heap st !! x) → x ≠ l →
          heap st' !! x = heap st !! x).
Proof.
  intros Hf. cbv zeta.
  destruct (top_frame_state ev st Hf) as (l & old & tr & _ & Hl & -> & _).
  assert (∀ k, k ≠ "url" →
            own_prop (<[l := <["url" := VStr (nav_url ev)]>
                               (default ∅ (heap st !! l))]> (heap st)) l k
            = match cache st !! nav_tabId ev with
              | Some l0 => own_prop (heap st) l0 k
              | None => VUndefined
              end) as Hother.
  { intros k Hk. unfold own_prop. rewrite lookup_insert_eq. simpl.
    rewrite lookup_insert_ne by done.
    destruct (cache st !! nav_tabId ev) as [l0|].
    - subst l0. by destruct (heap st !! l).
    - by rewrite Hl. }
  split.
  { unfold get, cache_get. simpl. rewrite lookup_insert_eq. simpl.
    by rewrite own_prop_url_insert. }
  split.
  { intros k Hk _. unfold get, cache_get. simpl. rewrite lookup_insert_eq. simpl.
    rewrite (Hother k Hk). by destruct (cache st !! nav_tabId ev). }
  split.
  { unfold getStyleIds. simpl. rewrite lookup_insert_eq.
    rewrite (Hother "styleIds") by done.
    by destruct (cache st !! nav_tabId ev). }
  split; [intros T' HT'; simpl; by rewrite lookup_insert_ne|].
  intros x l'. simpl. rewrite lookup_insert_eq. intros [= <-] _ Hx.
  by rewrite lookup_insert_ne.
Qed.

(** X11: of two top-frame navigations of one tab, the second reports
    the URL of the first as [oldUrl], even when the first URL was not
    supported and nobody was told about it; both use the same record. *)
Theorem consecutive_navigation_oldUrl (ev1 ev2 : NavEvent) (st : State) :
  nav_frameId ev1 = 0 →
  nav_frameId ev2 = 0 →
  nav_tabId ev2 = nav_tabId ev1 →
  supported (nav_url ev2) = true →
  let st1 := onUrlChange_handler supported invoke ev1 st in
  let st2 := onUrlChange_handler supported invoke ev2 st1 in
  ∃ l tr,
    cache st1 !! nav_tabId ev1 = Some l ∧
    cache st2 !! nav_tabId ev1 = Some l ∧
    trace st2 = trace st1 ++ StoreSet (nav_tabId ev1) l :: tr ∧
    calls tr =
      (λ f, (f, mkUrlChange (nav_tabId ev1) (nav_url ev2) (VStr (nav_url ev1))))
        <$> listeners st.
Proof.
  intros Hf1 Hf2 HT Hs. cbv zeta.
  destruct (top_frame_state ev1 st Hf1) as (l & old & tr1 & _ & _ & E1 & _).
  set (st1 := onUrlChange_handler supported invoke ev1 st) in *.
  assert (cache st1 !! nav_tabId ev1 = Some l) as Hc1.
  { rewrite E1. simpl. apply lookup_insert_eq. }
  assert (get st1 (nav_tabId ev1) ["url"] = Ok (VStr (nav_url ev1))) as Hu1.
  { rewrite E1. unfold get, cache_get. simpl. rewrite lookup_insert_eq. simpl.
    by rewrite own_prop_url_insert. }
  assert (listeners st1 = listeners st) as Hl1 by (by rewrite E1).
  destruct (top_frame_state ev2 st1 Hf2) as (l2 & old2 & tr2 & Hold2 & Hl2 & E2 & Hc2).
  rewrite HT in *. rewrite Hc1 in Hl2. subst l2.
  rewrite Hu1 in Hold2. injection Hold2 as <-.
  rewrite Hs, Hl1 in Hc2.
  exists l, tr2. split; [done|]. rewrite E2. simpl.
  split; [apply lookup_insert_eq|]. split; done.
Qed.

End NavigationMore.

(** *** Further properties: the reconciler *)

Lemma written_app tr1 tr2 : written (tr1 ++ tr2) = written tr1 ++ written tr2.
Proof. apply omap_app. Qed.

Section ReconcilerMore.
Variable supported : string → bool.
Variable dbData : gmap key loc.

Lemma live_pass_quiet tabs st :
  let st' := foldl (reconcile_tab supported dbData) st tabs in
  listeners st' = listeners st ∧
  dom (cache st) ⊆ dom (cache st') ∧
  (∀ k, (∀ t, t ∈ tabs → tab_id t = k → supported (tab_url t) = false) →
        cache st' !! k = cache st !! k) ∧
  ∃ tr, trace st' = trace st ++ tr ∧
        calls tr = [] ∧ removed tr = [] ∧
        written tr ⊆+ tab_id <$> filter (λ t, supported (tab_url t) = true) tabs ∧
        (dbData = ∅ →
         written tr = tab_id <$> filter (λ t, supported (tab_url t) = true) tabs).
Proof.
  revert st. induction tabs as [|t tabs IH]; intros st; simpl.
  - repeat split; try done. exists []. by rewrite app_nil_r.
  - destruct (IH (reconcile_tab supported dbData st t))
      as (IHl & IHd & IHc & tr & IHt & IHcalls & IHr & IHw & IHe).
    destruct (supported (tab_url t)) eqn:Hs.
    + rewrite filter_cons_True by done.
      destruct (reconcile_tab_step supported dbData st t Hs) as (l & dirty & Hl & E).
      rewrite E in *. simpl in *. clear E.
      split; [done|]. split.
      { etrans; [|exact IHd]. rewrite dom_insert_L. set_solver. }
      split.
      { intros k Hk. rewrite IHc.
        - rewrite lookup_insert_ne; [done|]. intros <-.
          specialize (Hk t). rewrite Hs in Hk.
          assert (true = false) by (apply Hk; [set_solver|done]). done.
        - intros t' Ht'. apply Hk. set_solver. }
      exists ((if dirty then [StoreSet (tab_id t) l] else []) ++ tr).
      split; [by rewrite IHt, <- app_assoc|].
      rewrite calls_app, removed_app, written_app, IHcalls, IHr.
      split; [by destruct dirty|]. split; [by destruct dirty|].
      split.
      * destruct dirty; simpl; [by apply submseteq_skip|by apply submseteq_cons].
      * intros He. rewrite (IHe He). subst dbData.
        rewrite lookup_empty in Hl. destruct Hl as [_ ->]. done.
    + rewrite filter_cons_False by congruence.
      rewrite reconcile_tab_skip in * by done.
      split; [done|]. split; [done|].
      split; [intros k Hk; apply IHc; intros t' Ht'; apply Hk; set_solver|].
      by exists tr.
Qed.

(** X12: the reconciler never drops a tab from the cache and leaves the
    entry of every id alone that is not the id of a live tab with a
    supported URL; it changes no object outside the snapshot, registers
    and calls no listener, and writes only under ids of live tabs with a
    supported URL, at most once per such tab. *)
Theorem reconcile_leaves_alone (tabs : list Tab) (st : State) :
  let st' := stateDb_ready_handler supported dbData tabs st in
  listeners st' = listeners st ∧
  dom (cache st) ⊆ dom (cache st') ∧
  (∀ k, (∀ t, t ∈ tabs → tab_id t = k → supported (tab_url t) = false) →
        cache st' !! k = cache st !! k) ∧
  (∀ x, is_Some (heap st !! x) → (∀ k, dbData !! k ≠ Some x) →
        heap st' !! x = heap st !! x) ∧
  ∃ tr, trace st' = trace st ++ tr ∧
        calls tr = [] ∧
        written tr ⊆+ tab_id <$> filter (λ t, supported (tab_url t) = true) tabs.
Proof.
  cbv zeta. unfold stateDb_ready_handler. rewrite sweep_trace. simpl.
  destruct (live_pass_quiet tabs st) as (Hl & Hd & Hc & tr & Ht & Hcalls & _ & Hw & _).
  destruct (live_pass_frame supported dbData tabs st) as (_ & _ & _ & Hh & _).
  split; [done|]. split; [done|]. split; [done|].
  split; [intros x Hx Hdb; apply Hh; [done|]; intros t _; apply Hdb|].
  eexists. split; [by rewrite Ht, <- app_assoc|].
  rewrite calls_app, written_app, Hcalls. simpl.
  assert (∀ ks, calls (StoreRemove <$> ks) = [] ∧
                written (StoreRemove <$> ks) = []) as Hrm.
  { induction ks as [|k ks [IH1 IH2]]; [done|]. by rewrite fmap_cons. }
  destruct (Hrm (filter (λ k, key_ge0 k = true ∧
     k ∉ dom (cache (foldl (reconcile_tab supported dbData) st tabs)))
     (map_to_list dbData).*1)) as [-> ->].
  split; [done|]. by rewrite app_nil_r.
Qed.

Lemma reconcile_tab_heap_dom st t :
  dom (heap st) ⊆ dom (heap (reconcile_tab supported dbData st t)).
Proof.
  destruct (supported (tab_url t)) eqn:Hs.
  - destruct (reconcile_tab_step supported dbData st t Hs) as (l & dirty & _ & ->).
    simpl. destruct dirty; [|done]. rewrite dom_insert_L. set_solver.
  - by rewrite reconcile_tab_skip.
Qed.

Lemma live_pass_new_records tabs st :
  dbData = ∅ →
  ∀ t, t ∈ tabs → supported (tab_url t) = true →
       ∃ l, cache (foldl (reconcile_tab supported dbData) st tabs) !! tab_id t
            = Some l ∧
            heap st !! l = None.
Proof.
  intros He. revert st. induction tabs as [|t0 tabs IH]; intros st t Hin Hs.
  { by apply elem_of_nil in Hin. }
  simpl.
  destruct (decide (Exists (λ t', tab_id t' = tab_id t ∧
                                 supported (tab_url t') = true) tabs))
    as [(t' & Hin' & Hid & Hs')%Exists_exists|Hno%Forall_Exists_neg].
  - destruct (IH (reconcile_tab supported dbData st t0) t' Hin' Hs')
      as (l & Hc & Hl).
    exists l. rewrite <- Hid. split; [done|].
    apply not_elem_of_dom. apply not_elem_of_dom in Hl.
    intros Hd. apply Hl. by apply reconcile_tab_heap_dom.
  - rewrite Forall_forall in Hno.
    apply elem_of_cons in Hin as [->|Hin]; [|by destruct (Hno t Hin)].
    destruct (live_pass_quiet tabs (reconcile_tab supported dbData st t0))
      as (_ & _ & Hc & _).
    rewrite Hc.
    + destruct (reconcile_tab_step supported dbData st t0 Hs)
        as (l & dirty & Hl & ->).
      subst dbData. rewrite lookup_empty in Hl. destruct Hl as [Hl _].
      exists l. simpl. by rewrite lookup_insert_eq.
    + intros t' Hin' Hid. destruct (supported (tab_url t')) eqn:Hs'; [|done].
      by destruct (Hno t' Hin').
Qed.

End ReconcilerMore.

(** X13: with an empty persisted mapping nothing is deleted, and every
    live tab with a supported URL gets a new record and one write, in
    the order of the tab list.  With no live tab the cache and the heap
    stay as they are, nothing is written, and exactly the persisted keys
    with [+key >= 0] that are not in the cache are deleted, once each.
    With both empty nothing happens at all. *)
Theorem reconcile_empty_inputs (supported : string → bool)
    (dbData : gmap key loc) (tabs : list Tab) (st : State) :
  let st' := stateDb_ready_handler supported dbData tabs st in
  (dbData = ∅ →
   (∃ tr, trace st' = trace st ++ tr ∧
          removed tr = [] ∧
          written tr
          = tab_id <$> filter (λ t, supported (tab_url t) = true) tabs) ∧
   (∀ t, t ∈ tabs → supported (tab_url t) = true →
         ∃ l, cache st' !! tab_id t = Some l ∧ heap st !! l = None)) ∧
  (tabs = [] →
   cache st' = cache st ∧ heap st' = heap st ∧
   ∃ tr, trace st' = trace st ++ tr ∧
         written tr = [] ∧
         NoDup (removed tr) ∧
         ∀ k, k ∈ removed tr ↔
              k ∈ dom dbData ∧ key_ge0 k = true ∧ k ∉ dom (cache st)) ∧
  (dbData = ∅ → tabs = [] → st' = st).
Proof.
  cbv zeta. unfold stateDb_ready_handler. split; [|split].
  - intros ->. rewrite map_to_list_empty. simpl. split.
    + destruct (live_pass_quiet supported ∅ tabs st)
        as (_ & _ & _ & tr & Ht & _ & Hr & _ & Hw).
      exists tr. split; [done|]. split; [done|]. by apply Hw.
    + by apply live_pass_new_records.
  - intros ->. simpl. rewrite sweep_trace. simpl.
    split; [done|]. split; [done|].
    eexists. split; [done|].
    set (ks := filter _ _).
    assert (written (StoreRemove <$> ks) = []) as ->.
    { induction ks as [|k ks IH]; [done|]. by rewrite fmap_cons. }
    rewrite removed_removes. split; [done|].
    split; [apply NoDup_filter, NoDup_fst_map_to_list|].
    intros k. unfold ks. rewrite list_elem_of_filter, list_elem_of_fmap. split.
    + intros [[? ?] ([k' l] & -> & Hin)]. simpl in *.
      apply elem_of_map_to_list in Hin.
      split; [|done]. apply elem_of_dom. by eexists.
    + intros ([l Hl]%elem_of_dom & ? & ?). split; [done|]. exists (k, l).
      split; [done|]. by apply elem_of_map_to_list.
  - intros -> ->. by rewrite map_to_list_empty.
Qed.

(** *** Further properties: iteration and lifecycle *)

Lemma elem_of_keys st T : T ∈ keys st ↔ is_Some (cache st !! T).
Proof.
  unfold keys. rewrite list_elem_of_fmap. split.
  - intros ([k l] & -> & Hin%elem_of_map_to_list). by eexists.
  - intros [l Hl]. exists (T, l). split; [done|]. by apply elem_of_map_to_list.
Qed.

(** X14: [keys()] yields every tracked tab once, and a tab is yielded
    exactly when [get(T)] is not [undefined]; [entries()] pairs it with
    the record [get(T)] returns.  [remove(T)] takes [T] out and keeps the
    others; [set] on [T] puts [T] in unless the value is [undefined],
    and never changes whether another tab is yielded. *)
Theorem keys_entries_track_cache (st : State) (T : key) :
  NoDup (keys st) ∧
  keys st = (fst <$> entries st) ∧
  (T ∈ keys st ↔ get st T [] ≠ Ok VUndefined) ∧
  (∀ l, (T, l) ∈ entries st ↔ get st T [] = Ok (VRef l)) ∧
  (T ∉ keys (remove T st)) ∧
  (∀ T', T' ≠ T → (T' ∈ keys (remove T st) ↔ T' ∈ keys st)) ∧
  (∀ path v, T ∈ keys (state_of (set T path v st)) ↔
             T ∈ keys st ∨ v ≠ VUndefined) ∧
  (∀ T' path v, T' ≠ T →
                (T' ∈ keys (state_of (set T path v st)) ↔ T' ∈ keys st)).
Proof.
  split; [apply NoDup_fst_map_to_list|]. split; [done|].
  split.
  { rewrite elem_of_keys. unfold get, cache_get. simpl.
    destruct (cache st !! T); split; try done; try (by eexists). }
  split.
  { intros l. unfold entries. rewrite elem_of_map_to_list.
    unfold get, cache_get. simpl. destruct (cache st !! T); naive_solver. }
  split.
  { rewrite elem_of_keys. unfold remove. simpl. rewrite lookup_delete_eq.
    by intros [? [=]]. }
  split.
  { intros T' HT'. rewrite !elem_of_keys. unfold remove. simpl.
    by rewrite lookup_delete_ne. }
  split.
  { intros path v. rewrite !elem_of_keys, set_cache.
    destruct (cache st !! T) as [l|] eqn:HT.
    - rewrite HT. split; [by left|by eexists].
    - case_bool_decide as Hv.
      + rewrite HT. split; [by intros [? [=]]|]. intros [[? [=]]|?]. done.
      + rewrite lookup_insert_eq. split; [by right|by eexists]. }
  intros T' path v HT'. rewrite !elem_of_keys, set_cache.
  destruct (cache st !! T); [done|]. case_bool_decide; [done|].
  by rewrite lookup_insert_ne.
Qed.

(** X15: when a tab is replaced, the record of the old id is evicted
    and the new id inherits nothing: it stays untracked, and its first
    supported top-frame navigation creates a new record and reports
    [oldUrl] as [undefined].  The store sees the removal of the old id,
    then the write of the new one. *)
Theorem replaced_tab_starts_fresh (supported : string → bool)
    (invoke : fn → UrlChange → option value)
    (added removed : key) (ev : NavEvent) (st : State) :
  added ≠ removed →
  cache st !! added = None →
  nav_frameId ev = 0 →
  nav_tabId ev = added →
  supported (nav_url ev) = true →
  let st1 := lifecycle_hook false (TabReplaced added removed) st in
  let st2 := onUrlChange_handler supported invoke ev st1 in
  (∀ q, get st1 removed q = Ok VUndefined) ∧
  (∀ q, get st1 added q = Ok VUndefined) ∧
  (∀ q, get st2 removed q = Ok VUndefined) ∧
  ∃ l tr,
    cache st2 !! added = Some l ∧
    heap st !! l = None ∧
    trace st2 = trace st ++ StoreRemove removed :: StoreSet added l :: tr ∧
    calls tr =
      (λ f, (f, mkUrlChange added (nav_url ev) VUndefined)) <$> listeners st.
Proof.
  intros Hne Hadd Hf HT Hs. cbv zeta. unfold lifecycle_hook. simpl.
  assert (∀ s T q, cache s !! T = None → get s T q = Ok VUndefined) as Hnone.
  { intros s T q Hc. unfold get, cache_get. rewrite Hc. by apply get_walk_falsy. }
  assert (cache (remove removed st) !! removed = None) as Hrem.
  { unfold remove. simpl. apply lookup_delete_eq. }
  assert (cache (remove removed st) !! added = None) as Hadd1.
  { unfold remove. simpl. by rewrite lookup_delete_ne. }
  split; [intros q; by apply Hnone|]. split; [intros q; by apply Hnone|].
  destruct (top_frame_state supported invoke ev (remove removed st) Hf)
    as (l & old & tr & Hold & Hl & E & Hc).
  rewrite HT in *. rewrite Hadd1 in Hl. rewrite Hnone in Hold by done.
  injection Hold as <-. rewrite Hs in Hc. rewrite E. simpl.
  split.
  { intros q. apply Hnone. simpl. rewrite lookup_insert_ne by done.
    apply lookup_delete_eq. }
  exists l, tr. split; [apply lookup_insert_eq|]. split; [done|].
  split; [by rewrite <- app_assoc|done].
Qed.

(** The hooks do nothing in a build with [MV3] set; otherwise both evict
    one id, the removed or the replaced one. *)
Lemma lifecycle_hooks_by_build (e : TabEvent) (st : State) :
  lifecycle_hook true e st = st ∧
  let st' := lifecycle_hook false e st in
  let old := match e with TabRemoved T => T | TabReplaced _ removed => removed end in
  cache st' = delete old (cache st) ∧
  heap st' = heap st ∧
  listeners st' = listeners st ∧
  trace st' = trace st ++ [StoreRemove old].
Proof. split; [done|]. by destruct e. Qed.

(** *** The further properties on the sample inputs *)

Lemma set_get_roundtrip_new_tab_witness :
  cache init !! tab7 = None ∧
  VNum 3 ≠ VUndefined ∧
  own_keys (["styleIds"; "0"] ++ ["1"]) = true ∧
  ∃ st' l,
    set tab7 (["styleIds"; "0"] ++ ["1"]) (VNum 3) init = Normal st' ∧
    get st' tab7 (["styleIds"; "0"] ++ ["1"]) = Ok (VNum 3) ∧
    trace st' = trace init ++ [StoreSet tab7 l].
Proof.
  split; [reflexivity|]. split; [discriminate|]. split; [reflexivity|].
  destruct (set_get_roundtrip_new_tab tab7 ["styleIds"; "0"] "1" (VNum 3) init)
    as (st' & l & Hs & Hg & _ & _ & Ht & _);
    [reflexivity|discriminate|reflexivity|].
  exists st', l. split; [exact Hs|]. split; [exact Hg|exact Ht].
Defined.

Lemma set_field_get_witness :
  VStr "http://b" ≠ VUndefined ∧
  inherited "url" = false ∧
  ∃ st',
    set tab7 ["url"] (VStr "http://b") st_url_only = Normal st' ∧
    get st' tab7 ["url"] = Ok (VStr "http://b").
Proof.
  split; [discriminate|]. split; [reflexivity|].
  destruct (set_field_get tab7 "url" (VStr "http://b") st_url_only)
    as (st' & Hs & Hg & _); [discriminate|reflexivity|].
  exists st'. split; [exact Hs|exact Hg].
Defined.


Lemma set_throw_unchanged_witness :
  own_keys ["a"; "b"] = true ∧
  set tab7 ["a"; "b"] (VNum 1) st_a5 = Throw st_a5 ∧
  is_Some (cache st_a5 !! tab7).
Proof.
  assert (set tab7 ["a"; "b"] (VNum 1) st_a5 = Throw st_a5) as E
    by (vm_compute; reflexivity).
  split; [reflexivity|]. split; [exact E|].
  destruct (set_throw_unchanged tab7 ["a"; "b"] (VNum 1) st_a5 st_a5
              eq_refl E) as (HT & _).
  exact HT.
Defined.

Lemma set_styleIds_getStyleIds_witness :
  VNum 3 ≠ VUndefined ∧
  "0" ≠ "styleIds" ∧
  inherited "0" = false ∧
  get st_url_only tab7 ["styleIds"] = Ok VUndefined ∧
  ∃ st' l,
    set tab7 ["styleIds"; "0"] (VNum 3) st_url_only = Normal st' ∧
    getStyleIds st' tab7 = VRef l ∧
    get st' tab7 ["styleIds"; "0"] = Ok (VNum 3).
Proof.
  split; [discriminate|]. split; [discriminate|]. split; [reflexivity|].
  split; [reflexivity|].
  apply (set_styleIds_getStyleIds tab7 "0" (VNum 3) st_url_only);
    [discriminate|discriminate|reflexivity|].
  intros x Hx. vm_compute in Hx. injection Hx as <-. reflexivity.
Defined.

Lemma registered_listener_called_once_witness :
  let ev := mkNavEvent tab7 0 "http://b" in
  let st' := onUrlChange_handler http_only second_throws ev
               (onOff 5 true st_listening) in
  nav_frameId ev = 0 ∧
  http_only (nav_url ev) = true ∧
  NoDup (listeners st_listening) ∧
  (5%nat ∉ listeners st_listening) ∧
  ∃ l old tr,
    let arg := mkUrlChange tab7 "http://b" old in
    trace st' = trace st_listening ++ StoreSet tab7 l :: tr ∧
    filter (λ c, c.1 = 5%nat) (calls tr) = [(5%nat, arg)] ∧
    calls tr = ((λ g, (g, arg)) <$> listeners st_listening) ++ [(5%nat, arg)].
Proof.
  assert (NoDup (listeners st_listening)) as Hnd.
  { apply (bool_decide_unpack _). vm_compute. exact I. }
  assert (5%nat ∉ listeners st_listening) as Hnew.
  { apply (bool_decide_unpack _). vm_compute. exact I. }
  split; [reflexivity|]. split; [reflexivity|]. split; [exact Hnd|].
  split; [exact Hnew|].
  destruct (registered_listener_called_once http_only second_throws 5%nat
              (mkNavEvent tab7 0 "http://b") st_listening eq_refl eq_refl Hnd)
    as (l & old & tr & _ & Ht & Hone & Hlast).
  exists l, old, tr. split; [exact Ht|]. split; [exact Hone|].
  exact (Hlast Hnew).
Defined.

Lemma navigation_updates_url_witness :
  let ev := mkNavEvent tab7 0 "chrome://newtab" in
  let st' := onUrlChange_handler http_only all_return ev st_url_only in
  nav_frameId ev = 0 ∧
  get st' tab7 ["url"] = Ok (VStr "chrome://newtab") ∧
  get st' tab7 ["styleIds"] = get st_url_only tab7 ["styleIds"] ∧
  getStyleIds st' tab7 = getStyleIds st_url_only tab7.
Proof.
  split; [reflexivity|].
  destruct (navigation_updates_url http_only all_return
              (mkNavEvent tab7 0 "chrome://newtab") st_url_only eq_refl)
    as (Hu & Hk & Hs & _).
  split; [exact Hu|]. split; [|exact Hs].
  apply Hk; [discriminate|reflexivity].
Defined.

Lemma consecutive_navigation_oldUrl_witness :
  let ev1 := mkNavEvent tab7 0 "chrome://newtab" in
  let ev2 := mkNavEvent tab7 0 "http://b" in
  let st1 := onUrlChange_handler http_only all_return ev1 st_listening in
  let st2 := onUrlChange_handler http_only all_return ev2 st1 in
  nav_frameId ev1 = 0 ∧ nav_frameId ev2 = 0 ∧
  nav_tabId ev2 = nav_tabId ev1 ∧
  http_only (nav_url ev2) = true ∧
  ∃ l tr,
    trace st2 = trace st1 ++ StoreSet tab7 l :: tr ∧
    calls tr =
      (λ f, (f, mkUrlChange tab7 "http://b" (VStr "chrome://newtab")))
        <$> listeners st_listening.
Proof.
  do 4 (split; [reflexivity|]).
  destruct (consecutive_navigation_oldUrl http_only all_return
              (mkNavEvent tab7 0 "chrome://newtab")
              (mkNavEvent tab7 0 "http://b") st_listening
              eq_refl eq_refl eq_refl eq_refl)
    as (l & tr & _ & _ & Ht & Hc).
  exists l, tr. split; [exact Ht|exact Hc].
Defined.

Lemma replaced_tab_starts_fresh_witness :
  let ev := mkNavEvent (KNum 8) 0 "http://b" in
  let st1 := lifecycle_hook false (TabReplaced (KNum 8) tab7) st_listening in
  let st2 := onUrlChange_handler http_only all_return ev st1 in
  KNum 8 ≠ tab7 ∧
  cache st_listening !! KNum 8 = None ∧
  nav_frameId ev = 0 ∧ nav_tabId ev = KNum 8 ∧
  http_only (nav_url ev) = true ∧
  get st2 tab7 ["url"] = Ok VUndefined ∧
  ∃ l tr,
    trace st2
    = trace st_listening ++ StoreRemove tab7 :: StoreSet (KNum 8) l :: tr ∧
    calls tr =
      (λ f, (f, mkUrlChange (KNum 8) "http://b" VUndefined))
        <$> listeners st_listening.
Proof.
  split; [discriminate|]. do 4 (split; [reflexivity|]).
  destruct (replaced_tab_starts_fresh http_only all_return (KNum 8) tab7
              (mkNavEvent (KNum 8) 0 "http://b") st_listening)
    as (_ & _ & Hold & l & tr & _ & _ & Ht & Hc);
    [discriminate|reflexivity|reflexivity|reflexivity|reflexivity|].
  split; [apply Hold|].
  exists l, tr. split; [exact Ht|exact Hc].
Defined.
